(** * services/metadataCache.js: the metadata cache, embedded and verified

    The JavaScript class [MetadataCache] keeps three insertion-ordered
    [Map]s (tags, correspondents, document types), one timestamp per map,
    three groups of counters and a time-to-live.  Its methods read the wall
    clock ([Date.now()]) and, for the asynchronous ones, call the upstream
    service and suspend at [await].

    The embedding keeps these effects explicit:
    - the clock is a sequence of readings, one consumed per [Date.now()];
    - every upstream call is appended to a log;
    - an asynchronous method is a tree whose nodes are the points where the
      JavaScript function is suspended.

    What the methods write to the console and to the log files is left
    out; a log line shows only where building its text reads the clock. *)

From Stdlib Require Import ZArith List String Bool Lia QArith Qround Qabs Lqa.
From Stdlib Require Import Ascii DecimalString.
Import ListNotations.

Set Implicit Arguments.
Set Warnings "-register-all".
Open Scope Z_scope.

(* ================================================================== *)
(** ** Records and JavaScript [Map]s *)

(** The three keys 'tags', 'correspondents', 'documentTypes'. *)
Inductive Category : Type := Tags | Correspondents | DocumentTypes.

Definition Category_eqb (a b : Category) : bool :=
  match a, b with
  | Tags, Tags | Correspondents, Correspondents
  | DocumentTypes, DocumentTypes => true
  | _, _ => false
  end.

(** A record identifier is a number or a string; a [Map] tells [1] from
    ['1']. *)
Inductive Id : Type :=
| IdNum (n : Z)
| IdStr (s : string).

Definition Id_eqb (a b : Id) : bool :=
  match a, b with
  | IdNum x, IdNum y => Z.eqb x y
  | IdStr x, IdStr y => String.eqb x y
  | _, _ => false
  end.

(** What upstream returns for one tag, correspondent or document type.  The
    cache reads [id] (the key) and [name] (for its log lines) only. *)
Record CachedRecord : Type := mkRecord { id : Id; name : string }.

(** [new Map()]: keys in insertion order, no key twice. *)
Definition JsMap : Type := list (Id * CachedRecord).

(** [m.set(k, v)]: an existing key keeps its position and takes the new
    value, a new key goes to the end. *)
Fixpoint map_set (m : JsMap) (k : Id) (v : CachedRecord) : JsMap :=
  match m with
  | [] => [(k, v)]
  | (k', v') :: m' =>
      if Id_eqb k' k then (k', v) :: m' else (k', v') :: map_set m' k v
  end.

(** [m.get(k)]. *)
Fixpoint map_get (m : JsMap) (k : Id) : option CachedRecord :=
  match m with
  | [] => None
  | (k', v') :: m' => if Id_eqb k' k then Some v' else map_get m' k
  end.

(** [m.has(k)]. *)
Definition map_has (m : JsMap) (k : Id) : bool :=
  match map_get m k with Some _ => true | None => false end.

(** [m.size]. *)
Definition map_size (m : JsMap) : Z := Z.of_nat (List.length m).

(** [m.clear()] leaves the empty map. *)
Definition map_clear (m : JsMap) : JsMap := [].

(** [Array.from(m.values())]: a fresh array of the values, in insertion
    order. *)
Definition map_values (m : JsMap) : list CachedRecord := List.map snd m.

Definition map_keys (m : JsMap) : list Id := List.map fst m.

(** [records.forEach(r => m.set(r.id, r))]. *)
Fixpoint set_each (m : JsMap) (records : list CachedRecord) : JsMap :=
  match records with
  | [] => m
  | r :: rest => set_each (map_set m (id r) r) rest
  end.

(** The last record of a sequence that carries a given id. *)
Fixpoint last_with_id (records : list CachedRecord) (k : Id)
  : option CachedRecord :=
  match records with
  | [] => None
  | r :: rest =>
      match last_with_id rest k with
      | Some r' => Some r'
      | None => if Id_eqb (id r) k then Some r else None
      end
  end.

(* ================================================================== *)
(** ** The object [{ tags: _, correspondents: _, documentTypes: _ }] *)

Record PerCategory (A : Type) : Type :=
  mkPer { tags : A; correspondents : A; documentTypes : A }.

(** [obj[type]] *)
Definition get {A} (c : Category) (p : PerCategory A) : A :=
  match c with
  | Tags => tags p
  | Correspondents => correspondents p
  | DocumentTypes => documentTypes p
  end.

(** [obj[type] = v] *)
Definition set {A} (c : Category) (v : A) (p : PerCategory A) : PerCategory A :=
  match c with
  | Tags => mkPer v (correspondents p) (documentTypes p)
  | Correspondents => mkPer (tags p) v (documentTypes p)
  | DocumentTypes => mkPer (tags p) (correspondents p) v
  end.

Definition all3 {A} (v : A) : PerCategory A := mkPer v v v.

(** [this.stats]. *)
Record Stats : Type := mkStats {
  hits : PerCategory nat;
  misses : PerCategory nat;
  refreshes : PerCategory nat
}.

Definition zeroStats : Stats := mkStats (all3 0%nat) (all3 0%nat) (all3 0%nat).

(** The fields of a [MetadataCache] instance.  [maps] holds [this.tags],
    [this.correspondents] and [this.documentTypes]; a [lastUpdate] entry is
    [null] ([None]) or a clock reading; [CACHE_TTL] is the result of
    [parseInt], [None] standing for [NaN]. *)
Record MetadataCache : Type := mkCache {
  maps : PerCategory JsMap;
  lastUpdate : PerCategory (option Z);
  stats : Stats;
  CACHE_TTL : option Z
}.

(* ================================================================== *)
(** ** The world a method runs in *)

(** [cache] is the singleton instance.  [clock] lists what successive
    [Date.now()] calls return and [ticks] counts the calls made so far.
    [upstreamCalls] records, oldest first, each call made to the upstream
    service: [Tags] for [getTags()], [Correspondents] for
    [listCorrespondentsNames()], [DocumentTypes] for
    [listDocumentTypesNames()]. *)
Record World : Type := mkWorld {
  cache : MetadataCache;
  clock : nat -> Z;
  ticks : nat;
  upstreamCalls : list Category
}.

(** Synchronous code: a state transformer with a result. *)
Definition Sync (A : Type) : Type := World -> A * World.

Definition ret {A} (a : A) : Sync A := fun w => (a, w).

Definition bind {A B} (m : Sync A) (k : A -> Sync B) : Sync B :=
  fun w => let (a, w') := m w in k a w'.

Declare Scope sync_scope.
Delimit Scope sync_scope with sync.
Notation "x <- m ;; k" := (bind m (fun x => k))
  (at level 61, m at next level, right associativity) : sync_scope.
Notation "m ;; k" := (bind m (fun _ => k))
  (at level 61, right associativity) : sync_scope.
Open Scope sync_scope.

(** [this]. *)
Definition this : Sync MetadataCache := fun w => (cache w, w).

Definition modify (f : MetadataCache -> MetadataCache) : Sync unit :=
  fun w => (tt, mkWorld (f (cache w)) (clock w) (ticks w) (upstreamCalls w)).

(** [Date.now()]. *)
Definition Date_now : Sync Z :=
  fun w => (clock w (ticks w),
            mkWorld (cache w) (clock w) (S (ticks w)) (upstreamCalls w)).

(** The call itself of an upstream method; its result comes later. *)
Definition call_upstream (type : Category) : Sync unit :=
  fun w => (tt, mkWorld (cache w) (clock w) (ticks w)
                        (upstreamCalls w ++ [type])).

(** Field updates. *)
Definition set_map (type : Category) (m : JsMap) (c : MetadataCache)
  : MetadataCache :=
  mkCache (set type m (maps c)) (lastUpdate c) (stats c) (CACHE_TTL c).

Definition set_lastUpdate (type : Category) (t : option Z) (c : MetadataCache)
  : MetadataCache :=
  mkCache (maps c) (set type t (lastUpdate c)) (stats c) (CACHE_TTL c).

Definition set_stats (s : Stats) (c : MetadataCache) : MetadataCache :=
  mkCache (maps c) (lastUpdate c) s (CACHE_TTL c).

(** [this.stats.hits[type]++] and its two siblings. *)
Definition incr_hits (type : Category) (c : MetadataCache) : MetadataCache :=
  let s := stats c in
  set_stats (mkStats (set type (S (get type (hits s))) (hits s))
                     (misses s) (refreshes s)) c.

Definition incr_misses (type : Category) (c : MetadataCache) : MetadataCache :=
  let s := stats c in
  set_stats (mkStats (hits s)
                     (set type (S (get type (misses s))) (misses s))
                     (refreshes s)) c.

Definition incr_refreshes (type : Category) (c : MetadataCache)
  : MetadataCache :=
  let s := stats c in
  set_stats (mkStats (hits s) (misses s)
                     (set type (S (get type (refreshes s))) (refreshes s))) c.

(* ================================================================== *)
(** ** Asynchronous methods *)

(** A thrown [Error]. *)
Record Error : Type := mkError { message : string }.

(** How an upstream call ends: its promise resolves to an array of
    records, or rejects. *)
Inductive Response : Type :=
| Resolves (records : list CachedRecord)
| Rejects (error : Error).

(** The state of a call to an [async] method.  It has returned or thrown,
    or it is suspended: at [await paperlessService.m()], waiting for the
    upstream response, or at the [await] of a promise of this class that
    has settled, waiting for its turn in the job queue.  A continuation is
    the synchronous code up to the next suspension. *)
Inductive Promise (A : Type) : Type :=
| Fulfilled (a : A)
| Rejected (e : Error)
| AwaitUpstream (type : Category)
                (k : Response -> World -> Promise A * World)
| AwaitJob (k : World -> Promise A * World).

Arguments Rejected {A} e.

Definition Async (A : Type) : Type := Sync (Promise A).

(** [await p] followed by [k]: the code after the [await] runs as a job of
    its own once [p] has settled, and a rejection of [p] is thrown at the
    [await]. *)
Fixpoint await {A B} (p : Promise A) (k : A -> Async B) : Promise B :=
  match p with
  | Fulfilled a => AwaitJob (k a)
  | Rejected e => AwaitJob (ret (Rejected e))
  | AwaitUpstream type k1 =>
      AwaitUpstream type
        (fun r w => let (p', w') := k1 r w in (await p' k, w'))
  | AwaitJob k1 =>
      AwaitJob (fun w => let (p', w') := k1 w in (await p' k, w'))
  end.

(** Runs a call to completion when nothing else is going on: each upstream
    response is taken from [responses] as soon as it is awaited, queued
    jobs run at once.  The call stays suspended if [responses] runs out. *)
Fixpoint settle {A} (p : Promise A) (responses : list Response) (w : World)
  : Promise A * World :=
  match p with
  | Fulfilled _ | Rejected _ => (p, w)
  | AwaitUpstream _ k =>
      match responses with
      | [] => (p, w)
      | r :: rest => let (p', w') := k r w in settle p' rest w'
      end
  | AwaitJob k => let (p', w') := k w in settle p' responses w'
  end.

Definition run {A} (m : Async A) (responses : list Response) : Async A :=
  fun w => let (p, w') := m w in settle p responses w'.

(* ================================================================== *)
(** ** The methods of [MetadataCache] *)

(** [age < this.CACHE_TTL]; a comparison with [NaN] is false. *)
Definition lt_ttl (age : Z) (ttl : option Z) : bool :=
  match ttl with
  | Some t => age <? t
  | None => false
  end.

(** [!lastUpdate]: [null] is falsy, and so is the number [0]. *)
Definition falsy (lastUpdate : option Z) : bool :=
  match lastUpdate with
  | None => true
  | Some t => t =? 0
  end.

(** [_isCacheValid(type)], lines 50-57. *)
Definition _isCacheValid (type : Category) : Sync bool :=
  c <- this ;;
  match get type (lastUpdate c) with
  | None => ret false
  | Some lastUpdate =>
      if falsy (Some lastUpdate) then ret false
      else
        now <- Date_now ;;
        let age := now - lastUpdate in
        ret (lt_ttl age (CACHE_TTL c))
  end.

(** An integer as a template literal prints it. *)
Definition string_of_Z (z : Z) : string :=
  NilZero.string_of_int (Z.to_int z).

(** [Math.floor(age / 60000)] and [Math.floor((age % 60000) / 1000)]; [%]
    takes the sign of the dividend. *)
Definition age_minutes (age : Z) : Z := age / 60000.
Definition age_seconds (age : Z) : Z := Z.rem age 60000 / 1000.

(** [getCacheAge(type)], lines 62-71. *)
Definition getCacheAge (type : Category) : Sync string :=
  c <- this ;;
  match get type (lastUpdate c) with
  | None => ret "Never"%string
  | Some lastUpdate =>
      if falsy (Some lastUpdate) then ret "Never"%string
      else
        now <- Date_now ;;
        let age := now - lastUpdate in
        let minutes := age_minutes age in
        let seconds := age_seconds age in
        ret (string_of_Z minutes ++ "m " ++ string_of_Z seconds ++ "s")%string
  end.

(** [Array.from(this[type].values())] *)
Definition values_of (type : Category) : Sync (list CachedRecord) :=
  c <- this ;;
  ret (map_values (get type (maps c))).

(** [refreshTags], [refreshCorrespondents], [refreshDocumentTypes], lines
    91-115, 135-159, 179-203: the three differ in the key and in the
    upstream method called.

    [refresh_resume] is the code after [await]: it runs when the response
    of upstream is there.  A rejection is thrown at the [await]; the
    [catch] block logs it and throws it again. *)
Definition refresh_resume (type : Category) (response : Response)
  : Async (list CachedRecord) :=
  match response with
  | Resolves records =>
      modify (fun c => set_map type (map_clear (get type (maps c))) c) ;;
      modify (fun c => set_map type (set_each (get type (maps c)) records) c) ;;
      now <- Date_now ;;
      modify (set_lastUpdate type (Some now)) ;;
      values <- values_of type ;;
      ret (Fulfilled values)
  | Rejects error => ret (Rejected error)
  end.

(** The counter goes up and the upstream method is called before the
    method suspends. *)
Definition refresh (type : Category) : Async (list CachedRecord) :=
  modify (incr_refreshes type) ;;
  call_upstream type ;;
  ret (AwaitUpstream type (refresh_resume type)).

Definition refreshTags : Async (list CachedRecord) := refresh Tags.
Definition refreshCorrespondents : Async (list CachedRecord) :=
  refresh Correspondents.
Definition refreshDocumentTypes : Async (list CachedRecord) :=
  refresh DocumentTypes.

(** [ensureTags], [ensureCorrespondents], [ensureDocumentTypes], lines
    76-86, 120-130, 164-174.  The log line of the hit branch calls
    [getCacheAge], which reads the clock.

    [ensure_resume] is the code after [await this.refresh...()]: the last
    line, which runs as a job once the refresh has returned. *)
Definition ensure_resume (type : Category) : Async (list CachedRecord) :=
  values <- values_of type ;;
  ret (Fulfilled values).

Definition ensure (type : Category) : Async (list CachedRecord) :=
  valid <- _isCacheValid type ;;
  c <- this ;;
  if valid && (0 <? map_size (get type (maps c))) then
    modify (incr_hits type) ;;
    _ <- getCacheAge type ;;
    values <- values_of type ;;
    ret (Fulfilled values)
  else
    modify (incr_misses type) ;;
    p <- refresh type ;;
    ret (await p (fun _ => ensure_resume type)).

Definition ensureTags : Async (list CachedRecord) := ensure Tags.
Definition ensureCorrespondents : Async (list CachedRecord) :=
  ensure Correspondents.
Definition ensureDocumentTypes : Async (list CachedRecord) :=
  ensure DocumentTypes.

(** [clearAll()], lines 236-250. *)
Definition clearAll : Sync unit :=
  modify (fun c => set_map Tags (map_clear (get Tags (maps c))) c) ;;
  modify (fun c =>
    set_map Correspondents (map_clear (get Correspondents (maps c))) c) ;;
  modify (fun c =>
    set_map DocumentTypes (map_clear (get DocumentTypes (maps c))) c) ;;
  modify (set_lastUpdate Tags None) ;;
  modify (set_lastUpdate Correspondents None) ;;
  modify (set_lastUpdate DocumentTypes None).

(** [addTag], [addCorrespondent], [addDocumentType], lines 255-274. *)
Definition addOne (type : Category) (record : CachedRecord) : Sync unit :=
  modify (fun c =>
    set_map type (map_set (get type (maps c)) (id record) record) c).

Definition addTag (tag : CachedRecord) : Sync unit := addOne Tags tag.
Definition addCorrespondent (correspondent : CachedRecord) : Sync unit :=
  addOne Correspondents correspondent.
Definition addDocumentType (docType : CachedRecord) : Sync unit :=
  addOne DocumentTypes docType.

(** [resetStats()], lines 326-333. *)
Definition resetStats : Sync unit := modify (set_stats zeroStats).

(** [refreshAll], lines 208-231.  The three refreshes are called one after
    the other, so each has counted itself and called upstream before
    [Promise.all] is awaited.  [outcome] is [None] while [Promise.all] is
    pending. *)
Record RefreshAll : Type := mkRefreshAll {
  startTime : Z;
  children : PerCategory (Promise (list CachedRecord));
  outcome : option (Promise bool)
}.

Definition refreshAll : Sync RefreshAll :=
  startTime <- Date_now ;;
  t <- refreshTags ;;
  c <- refreshCorrespondents ;;
  d <- refreshDocumentTypes ;;
  ret (mkRefreshAll startTime (mkPer t c d) None).

Definition is_fulfilled {A} (p : Promise A) : bool :=
  match p with
  | Fulfilled _ => true
  | _ => false
  end.

(** The response to one of the three upstream calls arrives.  The refresh
    it belongs to runs on; [Promise.all] rejects with the first rejection
    and resolves once all three are fulfilled, after which [refreshAll]
    measures the duration and returns [true].  A refresh that ends after
    [Promise.all] has rejected still changes the cache. *)
Definition refreshAll_deliver (type : Category) (response : Response)
  (call : RefreshAll) : Sync RefreshAll :=
  match get type (children call) with
  | AwaitUpstream _ k =>
      p <- k response ;;
      let children' := set type p (children call) in
      match outcome call with
      | Some o => ret (mkRefreshAll (startTime call) children' (Some o))
      | None =>
          match p with
          | Rejected error =>
              ret (mkRefreshAll (startTime call) children'
                                (Some (Rejected error)))
          | _ =>
              if is_fulfilled (tags children')
                 && is_fulfilled (correspondents children')
                 && is_fulfilled (documentTypes children')
              then
                now <- Date_now ;;
                let duration := now - startTime call in
                ret (mkRefreshAll (startTime call) children'
                                  (Some (Fulfilled true)))
              else ret (mkRefreshAll (startTime call) children' None)
          end
      end
  | _ => ret call
  end.

Fixpoint refreshAll_settle (arrivals : list (Category * Response))
  (call : RefreshAll) : Sync RefreshAll :=
  match arrivals with
  | [] => ret call
  | (type, response) :: rest =>
      call' <- refreshAll_deliver type response call ;;
      refreshAll_settle rest call'
  end.

(** [refreshAll] with the responses arriving in the order of [arrivals]. *)
Definition run_refreshAll (arrivals : list (Category * Response))
  : Sync RefreshAll :=
  call <- refreshAll ;;
  refreshAll_settle arrivals call.

(* ------------------------------------------------------------------ *)
(** *** The constructor *)

Definition is_space (a : ascii) : bool :=
  let n := nat_of_ascii a in
  Nat.eqb n 32 || (Nat.leb 9 n && Nat.leb n 13).

Definition digit_of (a : ascii) : option Z :=
  let n := nat_of_ascii a in
  if Nat.leb 48 n && Nat.leb n 57 then Some (Z.of_nat n - 48) else None.

Fixpoint skip_spaces (s : string) : string :=
  match s with
  | String a s' => if is_space a then skip_spaces s' else s
  | EmptyString => s
  end.

(** The value of the longest prefix of decimal digits; [acc] is the value
    read so far, [None] before the first digit. *)
Fixpoint digits (s : string) (acc : option Z) : option Z :=
  match s with
  | String a s' =>
      match digit_of a with
      | Some d =>
          digits s' (Some (10 * match acc with Some v => v | None => 0 end + d))
      | None => acc
      end
  | EmptyString => acc
  end.

(** [parseInt(s, 10)] on a string of ASCII characters: leading white space,
    a sign, then digits; [None] is [NaN].  Integers are exact, as
    JavaScript numbers are below 2^53. *)
Definition parseInt (s : string) : option Z :=
  match skip_spaces s with
  | String "-" s' => option_map Z.opp (digits s' None)
  | String "+" s' => digits s' None
  | s' => digits s' None
  end.

(** [process.env.METADATA_CACHE_TTL || '1800000']: an unset variable and
    the empty string are falsy. *)
Definition ttl_setting (env : option string) : string :=
  match env with
  | None | Some EmptyString => "1800000"
  | Some s => s
  end.

(** [new MetadataCache()], lines 24-45, with the value of the environment
    variable [METADATA_CACHE_TTL]. *)
Definition new_MetadataCache (METADATA_CACHE_TTL : option string)
  : MetadataCache :=
  mkCache (all3 []) (all3 None) zeroStats
          (parseInt (ttl_setting METADATA_CACHE_TTL)).

(** The world at the start of the process. *)
Definition new_World (METADATA_CACHE_TTL : option string) (clock : nat -> Z)
  : World :=
  mkWorld (new_MetadataCache METADATA_CACHE_TTL) clock 0 [].

(* ------------------------------------------------------------------ *)
(** *** Statistics *)

(** The two values [hitRate] can take before [%] is appended: the number
    [0], or the result of [toFixed(2)], here in hundredths. *)
Inductive HitRate : Type :=
| RateZero
| RateFixed (hundredths : Z).

(** [x.toFixed(2)], in hundredths: the integer [n] with [n / 100] nearest
    to [x], the larger one of two; a negative [x] is rounded as [-x]. *)
Definition toFixed2 (x : Q) : Z :=
  if Qle_bool 0 x then Qfloor (x * 100 + (1 # 2))%Q
  else - Qfloor ((- x) * 100 + (1 # 2))%Q.

Module CategoryStats.
Record t : Type := mk {
  size : Z;
  lastUpdate : option Z;
  age : string;
  valid : bool;
  hits : nat;
  misses : nat;
  refreshes : nat
}.
End CategoryStats.

Module Overall.
Record t : Type := mk {
  totalHits : nat;
  totalMisses : nat;
  totalRequests : nat;
  hitRate : HitRate;
  cacheTTL : option Q
}.
End Overall.

(** What [getStats()] returns. *)
Record Snapshot : Type := mkSnapshot {
  perCategory : PerCategory CategoryStats.t;
  overall : Overall.t
}.

Definition Q_of_nat (n : nat) : Q := inject_Z (Z.of_nat n).

Section Numbers.

(** JavaScript numbers are doubles: a division or a product is the exact
    result rounded to the nearest double, [fl] of it.  Counters and clock
    readings are integers, which doubles hold exactly. *)
Variable fl : Q -> Q.

(** [totalRequests > 0 ? ((totalHits / totalRequests) * 100).toFixed(2) : 0] *)
Definition hitRate_of (totalHits totalRequests : nat) : HitRate :=
  if Nat.ltb 0 totalRequests
  then RateFixed
         (toFixed2
            (fl (fl (Q_of_nat totalHits / Q_of_nat totalRequests) * 100)%Q))
  else RateZero.

(** One of the three per-category objects; [age] is evaluated before
    [valid], each reading the clock for itself. *)
Definition categoryStats (type : Category) : Sync CategoryStats.t :=
  c <- this ;;
  age <- getCacheAge type ;;
  valid <- _isCacheValid type ;;
  ret (CategoryStats.mk
         (map_size (get type (maps c)))
         (get type (lastUpdate c))
         age valid
         (get type (hits (stats c)))
         (get type (misses (stats c)))
         (get type (refreshes (stats c)))).

(** [getStats()], lines 279-321.  [cacheTTL] is the number in front of
    [' minutes']. *)
Definition getStats : Sync Snapshot :=
  c <- this ;;
  let s := stats c in
  let totalHits :=
    (tags (hits s) + correspondents (hits s) + documentTypes (hits s))%nat in
  let totalMisses :=
    (tags (misses s) + correspondents (misses s)
     + documentTypes (misses s))%nat in
  let totalRequests := (totalHits + totalMisses)%nat in
  let hitRate := hitRate_of totalHits totalRequests in
  t <- categoryStats Tags ;;
  co <- categoryStats Correspondents ;;
  d <- categoryStats DocumentTypes ;;
  ret (mkSnapshot (mkPer t co d)
         (Overall.mk totalHits totalMisses totalRequests hitRate
            (option_map (fun ttl => fl (inject_Z ttl / 60000)%Q) (CACHE_TTL c)))).

(* ================================================================== *)
(** ** Sequences of calls *)

(** A call made from outside, with what upstream answers if asked. *)
Inductive Call : Type :=
| CallEnsure (type : Category) (response : Response)
| CallRefresh (type : Category) (response : Response)
| CallRefreshAll (arrivals : list (Category * Response))
| CallClearAll
| CallAdd (type : Category) (record : CachedRecord)
| CallGetCacheAge (type : Category)
| CallGetStats
| CallResetStats.

(** One call, run to its end before the next one starts. *)
Definition run_call (call : Call) (w : World) : World :=
  match call with
  | CallEnsure type response => snd (run (ensure type) [response] w)
  | CallRefresh type response => snd (run (refresh type) [response] w)
  | CallRefreshAll arrivals => snd (run_refreshAll arrivals w)
  | CallClearAll => snd (clearAll w)
  | CallAdd type record => snd (addOne type record w)
  | CallGetCacheAge type => snd (getCacheAge type w)
  | CallGetStats => snd (getStats w)
  | CallResetStats => snd (resetStats w)
  end.

Fixpoint run_calls (calls : list Call) (w : World) : World :=
  match calls with
  | [] => w
  | call :: rest => run_calls rest (run_call call w)
  end.

End Numbers.

(* ================================================================== *)
(** ** Calls in flight at the same time *)

(** The calls in flight, in the order they were made. *)
Definition Pool (A : Type) : Type := list (Promise A).

(** What the event loop does next: hand the response of upstream to the
    call that waits for it, or run the queued job of a call. *)
Inductive Event : Type :=
| Arrives (i : nat) (response : Response)
| Job (i : nat).

Definition resume {A} (e : Event) (p : Promise A) : Sync (Promise A) :=
  match e, p with
  | Arrives _ response, AwaitUpstream _ k => k response
  | Job _, AwaitJob k => k
  | _, _ => ret p
  end.

Definition target (e : Event) : nat :=
  match e with
  | Arrives i _ => i
  | Job i => i
  end.

Fixpoint resume_nth {A} (i : nat) (e : Event) (pool : Pool A)
  : Sync (Pool A) :=
  match pool, i with
  | [], _ => ret []
  | p :: rest, O => p' <- resume e p ;; ret (p' :: rest)
  | p :: rest, S j => rest' <- resume_nth j e rest ;; ret (p :: rest')
  end.

Fixpoint event_loop {A} (events : list Event) (pool : Pool A)
  : Sync (Pool A) :=
  match events with
  | [] => ret pool
  | e :: rest =>
      pool' <- resume_nth (target e) e pool ;;
      event_loop rest pool'
  end.

(** [n] calls of [m] made in a row, none awaited before the next. *)
Fixpoint call_n {A} (n : nat) (m : Async A) : Sync (Pool A) :=
  match n with
  | O => ret []
  | S n' =>
      p <- m ;;
      rest <- call_n n' m ;;
      ret (p :: rest)
  end.

(* ================================================================== *)
(** ** Vocabulary of the statements *)

(** The world after one more clock reading. *)
Definition tick (w : World) : World :=
  mkWorld (cache w) (clock w) (S (ticks w)) (upstreamCalls w).

(** The world with another cache. *)
Definition with_cache (c : MetadataCache) (w : World) : World :=
  mkWorld c (clock w) (ticks w) (upstreamCalls w).

(** The entries and the timestamp of a category. *)
Definition entries (type : Category) (w : World) : JsMap :=
  get type (maps (cache w)).

Definition lastRefreshAt (type : Category) (w : World) : option Z :=
  get type (lastUpdate (cache w)).

(** The test at the head of [ensure]: the cache of the category is valid
    at the next clock reading and holds at least one entry. *)
Definition serves_from_cache (type : Category) (w : World) : bool :=
  fst (_isCacheValid type w) && (0 <? map_size (entries type w)).

(** The text [getCacheAge] builds for an age in milliseconds. *)
Definition age_text (age : Z) : string :=
  (string_of_Z (age_minutes age) ++ "m " ++ string_of_Z (age_seconds age)
   ++ "s")%string.

(** The world after [getStats]: the three categories in turn. *)
Definition after_getStats (w : World) : World :=
  snd (categoryStats DocumentTypes
         (snd (categoryStats Correspondents (snd (categoryStats Tags w))))).

(** A call suspended at its upstream call. *)
Definition awaits_upstream {A} (p : Promise A) : bool :=
  match p with
  | AwaitUpstream _ _ => true
  | _ => false
  end.

(** The response that reaches the refresh of [type] inside [refreshAll]:
    the first one addressed to it. *)
Fixpoint first_arrival (type : Category)
  (arrivals : list (Category * Response)) : option Response :=
  match arrivals with
  | [] => None
  | (t, response) :: rest =>
      if Category_eqb t type then Some response else first_arrival type rest
  end.

(** Whether upstream was called between two worlds. *)
Definition called_upstream (w w' : World) : bool :=
  negb (Nat.eqb (List.length (upstreamCalls w'))
                (List.length (upstreamCalls w))).

(** What one call adds to the count of hits ([missed = false]) or misses
    ([missed = true]) of a category. *)
Definition counts_as (missed : bool) (type : Category) (call : Call)
  (w w' : World) : nat :=
  match call with
  | CallEnsure t _ =>
      if Category_eqb t type && Bool.eqb (called_upstream w w') missed
      then 1 else 0
  | _ => 0
  end.

(** The hits of a sequence of calls for a category: the [ensure] calls of
    the category that returned without a call to upstream.  The misses:
    those that called upstream. *)
Fixpoint count_ensure (fl : Q -> Q) (missed : bool) (type : Category)
  (calls : list Call) (w : World) : nat :=
  match calls with
  | [] => O
  | call :: rest =>
      let w' := run_call fl call w in
      (counts_as missed type call w w' + count_ensure fl missed type rest w')%nat
  end.

Definition hit_count (fl : Q -> Q) := count_ensure fl false.
Definition miss_count (fl : Q -> Q) := count_ensure fl true.

Definition is_reset (call : Call) : bool :=
  match call with
  | CallResetStats => true
  | _ => false
  end.

(** Whether a call, made in world [w], completes a refresh of [type]. *)
Definition refresh_succeeds (type : Category) (call : Call) (w : World)
  : bool :=
  match call with
  | CallRefresh t (Resolves _) => Category_eqb t type
  | CallEnsure t (Resolves _) =>
      Category_eqb t type && negb (serves_from_cache t w)
  | CallRefreshAll arrivals =>
      match first_arrival type arrivals with
      | Some (Resolves _) => true
      | _ => false
      end
  | _ => false
  end.

(** Whether a refresh of [type] has succeeded since the last [clearAll];
    [before] is the answer for the calls made earlier. *)
Fixpoint refreshed_since_clear (fl : Q -> Q) (type : Category)
  (calls : list Call) (w : World) (before : bool) : bool :=
  match calls with
  | [] => before
  | call :: rest =>
      refreshed_since_clear fl type rest (run_call fl call w)
        (match call with
         | CallClearAll => false
         | _ => before || refresh_succeeds type call w
         end)
  end.

(** The records given to [addOne] for [type] since the last [clearAll],
    oldest first; [before] are those of the calls made earlier. *)
Fixpoint added_since_clear (type : Category) (calls : list Call)
  (before : list CachedRecord) : list CachedRecord :=
  match calls with
  | [] => before
  | call :: rest =>
      added_since_clear type rest
        (match call with
         | CallClearAll => []
         | CallAdd t record =>
             if Category_eqb t type then before ++ [record] else before
         | _ => before
         end)
  end.

Definition is_absent (t : option Z) : bool :=
  match t with
  | None => true
  | Some _ => false
  end.

(** The refreshes started by [refreshAll] are suspended in [refresh] or
    have settled. *)
Definition children_ok (call : RefreshAll) : Prop :=
  forall type,
    get type (children call) = AwaitUpstream type (refresh_resume type)
    \/ awaits_upstream (get type (children call)) = false.

(** How far the double nearest to a number between -1 and 101 can be from
    it: doubles below 128 are at most 2^-46 apart. *)
Definition double_spacing : Q := 1 # 70368744177664.

Definition rounds_to_double (fl : Q -> Q) : Prop :=
  forall x : Q,
    (- (1) <= x)%Q -> (x <= 101)%Q -> (Qabs (fl x - x) <= double_spacing)%Q.

(** The world at another clock reading. *)
Definition at_reading (k : nat) (w : World) : World :=
  mkWorld (cache w) (clock w) k (upstreamCalls w).

(** An [ensure] that has missed, while its refresh waits for upstream. *)
Definition ensure_suspended (type : Category) : Promise (list CachedRecord) :=
  await (AwaitUpstream type (refresh_resume type))
        (fun _ => ensure_resume type).

(** Where such a call is: waiting for upstream; queued, its refresh done
    and its last line due to run as a job; or returned. *)
Inductive Stage : Type := Waiting | Queued | Returned.

(** The call at each stage, when upstream answers with [records]. *)
Definition thread_at (type : Category) (records : list CachedRecord)
  (s : Stage) : Promise (list CachedRecord) :=
  match s with
  | Waiting => ensure_suspended type
  | Queued => AwaitJob (ensure_resume type)
  | Returned => Fulfilled (map_values (set_each [] records))
  end.

Definition advance (e : Event) (s : Stage) : Stage :=
  match e, s with
  | Arrives _ _, Waiting => Queued
  | Job _, Queued => Returned
  | _, _ => s
  end.

(** The stage of call [i] after the events, from stage [s]: only the
    events addressed to [i] count. *)
Fixpoint stage_of (events : list Event) (i : nat) (s : Stage) : Stage :=
  match events with
  | [] => s
  | e :: rest =>
      stage_of rest i (if Nat.eqb (target e) i then advance e s else s)
  end.

(** Every response that arrives carries [records]. *)
Definition answers_with (records : list CachedRecord) (e : Event) : Prop :=
  match e with
  | Arrives _ response => response = Resolves records
  | Job _ => True
  end.

Fixpoint advance_nth (i : nat) (e : Event) (stages : list Stage)
  : list Stage :=
  match stages, i with
  | [], _ => []
  | s :: rest, O => advance e s :: rest
  | s :: rest, S j => s :: advance_nth j e rest
  end.

Fixpoint stages_after (events : list Event) (stages : list Stage)
  : list Stage :=
  match events with
  | [] => stages
  | e :: rest => stages_after rest (advance_nth (target e) e stages)
  end.

(** What a missing [ensure] has done to the cache when it suspends. *)
Definition count_miss (type : Category) (c : MetadataCache) : MetadataCache :=
  incr_refreshes type (incr_misses type c).

(** While every call waits nothing is known of the entries; once a
    response has arrived they are those of [records]. *)
Definition pool_ok (type : Category) (records : list CachedRecord)
  (stages : list Stage) (w : World) : Prop :=
  Forall (fun s => s = Waiting) stages
  \/ entries type w = set_each [] records.

(** A map as the cache builds it: no key twice, each record under its own
    id. *)
Definition keyed_by_id (m : JsMap) : Prop :=
  NoDup (map_keys m) /\ Forall (fun kv => fst kv = id (snd kv)) m.

(** How often the upstream method of a category was called. *)
Definition calls_to (type : Category) (log : list Category) : nat :=
  List.length (filter (Category_eqb type) log).

(** The test [Promise.all] passes: the three refreshes are fulfilled. *)
Definition all_fulfilled (children : PerCategory (Promise (list CachedRecord)))
  : bool :=
  is_fulfilled (tags children) && is_fulfilled (correspondents children)
  && is_fulfilled (documentTypes children).

(** The wall clock after the epoch: no reading is [0]. *)
Definition never_reads_zero (clock0 : nat -> Z) : Prop :=
  forall n, clock0 n <> 0.

(** A clock that does not run backwards. *)
Definition monotone (clock0 : nat -> Z) : Prop :=
  forall i j, (i <= j)%nat -> clock0 i <= clock0 j.

(** From [w] to [w']: the same clock, no reading given back, and each
    timestamp kept, removed, or set to a reading taken in between. *)
Definition stamped_since (w w' : World) : Prop :=
  clock w' = clock w
  /\ (ticks w <= ticks w')%nat
  /\ forall type,
       lastRefreshAt type w' = lastRefreshAt type w
       \/ lastRefreshAt type w' = None
       \/ exists k, (ticks w <= k < ticks w')%nat
                    /\ lastRefreshAt type w' = Some (clock w k).

(** Every timestamp is a reading the clock has given. *)
Definition stamps_are_readings (w : World) : Prop :=
  forall type t,
    lastRefreshAt type w = Some t ->
    exists k, (k < ticks w)%nat /\ t = clock w k.

(** The calls after the last [resetStats], and those up to it. *)
Fixpoint since_last_reset (calls : list Call) : list Call :=
  match calls with
  | [] => []
  | call :: rest =>
      if existsb is_reset rest then since_last_reset rest
      else if is_reset call then rest
      else call :: rest
  end.

Fixpoint until_last_reset (calls : list Call) : list Call :=
  match calls with
  | [] => []
  | call :: rest =>
      if existsb is_reset rest then call :: until_last_reset rest
      else if is_reset call then [call]
      else []
  end.

(* ================================================================== *)
(** * Properties *)

Unset Implicit Arguments.

(** ** Maps *)

Lemma Id_eqb_eq (a b : Id) : Id_eqb a b = true <-> a = b.
Proof.
  destruct a as [x|x], b as [y|y]; simpl; split; intro H;
    try discriminate; try congruence.
  - apply Z.eqb_eq in H. now subst.
  - injection H as ->. apply Z.eqb_refl.
  - apply String.eqb_eq in H. now subst.
  - injection H as ->. apply String.eqb_refl.
Qed.

Lemma Id_eqb_refl (a : Id) : Id_eqb a a = true.
Proof. now apply Id_eqb_eq. Qed.

Lemma Id_eqb_neq (a b : Id) : Id_eqb a b = false <-> a <> b.
Proof.
  split.
  - intros H E. apply Id_eqb_eq in E. congruence.
  - intro H. destruct (Id_eqb a b) eqn:E; [|reflexivity].
    apply Id_eqb_eq in E. contradiction.
Qed.

Lemma Id_eqb_sym (a b : Id) : Id_eqb a b = Id_eqb b a.
Proof.
  destruct (Id_eqb a b) eqn:E; symmetry.
  - apply Id_eqb_eq in E. subst. apply Id_eqb_refl.
  - apply Id_eqb_neq. apply Id_eqb_neq in E. congruence.
Qed.

Lemma map_get_set (m : JsMap) (k k' : Id) (v : CachedRecord) :
  map_get (map_set m k v) k' =
  if Id_eqb k k' then Some v else map_get m k'.
Proof.
  induction m as [|[k0 v0] m IH]; simpl.
  - reflexivity.
  - destruct (Id_eqb k0 k) eqn:E0; simpl.
    + apply Id_eqb_eq in E0. subst k0.
      destruct (Id_eqb k k'); reflexivity.
    + destruct (Id_eqb k0 k') eqn:E1.
      * apply Id_eqb_eq in E1. subst k0. now rewrite Id_eqb_sym, E0.
      * exact IH.
Qed.

Lemma map_get_set_each (records : list CachedRecord) (m : JsMap) (k : Id) :
  map_get (set_each m records) k =
  match last_with_id records k with
  | Some r => Some r
  | None => map_get m k
  end.
Proof.
  revert m. induction records as [|r rest IH]; intro m; simpl.
  - reflexivity.
  - rewrite IH, map_get_set.
    destruct (last_with_id rest k); [reflexivity|].
    destruct (Id_eqb (id r) k); reflexivity.
Qed.

Lemma map_get_In (m : JsMap) (k : Id) (v : CachedRecord) :
  map_get m k = Some v -> In v (map_values m).
Proof.
  induction m as [|[k0 v0] m IH]; simpl; [discriminate|].
  destruct (Id_eqb k0 k); intro H.
  - left. congruence.
  - right. auto.
Qed.

Lemma map_keys_set (m : JsMap) (k : Id) (v : CachedRecord) :
  map_keys (map_set m k v) =
  if map_has m k then map_keys m else map_keys m ++ [k].
Proof.
  unfold map_has.
  induction m as [|[k0 v0] m IH]; simpl; [reflexivity|].
  destruct (Id_eqb k0 k) eqn:E; simpl; [reflexivity|].
  rewrite IH. destruct (map_get m k); reflexivity.
Qed.

Lemma map_has_In (m : JsMap) (k : Id) :
  map_has m k = true <-> In k (map_keys m).
Proof.
  unfold map_has.
  induction m as [|[k0 v0] m IH]; simpl.
  - split; [discriminate | tauto].
  - destruct (Id_eqb k0 k) eqn:E.
    + apply Id_eqb_eq in E. tauto.
    + apply Id_eqb_neq in E. rewrite IH. split; [tauto|]. intros [H|H]; tauto.
Qed.

(** [set] never creates a second entry for a key. *)
Lemma map_set_NoDup (m : JsMap) (k : Id) (v : CachedRecord) :
  NoDup (map_keys m) -> NoDup (map_keys (map_set m k v)).
Proof.
  intro H. rewrite map_keys_set.
  destruct (map_has m k) eqn:E; [exact H|].
  apply NoDup_app; [exact H | repeat constructor; simpl; tauto |].
  intros x Hx [<-|[]].
  apply map_has_In in Hx. congruence.
Qed.

Lemma set_each_NoDup (records : list CachedRecord) (m : JsMap) :
  NoDup (map_keys m) -> NoDup (map_keys (set_each m records)).
Proof.
  revert m. induction records as [|r rest IH]; intros m H; simpl.
  - exact H.
  - apply IH, map_set_NoDup, H.
Qed.

(** Records with distinct ids are stored in the order they come in. *)
Lemma set_each_distinct (records : list CachedRecord) (m : JsMap) :
  NoDup (map_keys m ++ List.map id records) ->
  set_each m records = m ++ List.map (fun r => (id r, r)) records.
Proof.
  revert m. induction records as [|r rest IH]; intros m H; simpl.
  - now rewrite app_nil_r.
  - assert (Hset : map_set m (id r) r = m ++ [(id r, r)]).
    { assert (Hk : ~ In (id r) (map_keys m)).
      { intro Hin. apply NoDup_remove_2 in H. apply H.
        apply in_or_app. now left. }
      clear - Hk. induction m as [|[k0 v0] m IHm]; simpl; [reflexivity|].
      destruct (Id_eqb k0 (id r)) eqn:E.
      - apply Id_eqb_eq in E. subst. simpl in Hk. tauto.
      - f_equal. apply IHm. simpl in Hk. tauto. }
    rewrite Hset, IH.
    + now rewrite <- app_assoc.
    + unfold map_keys in *. rewrite map_app. simpl.
      rewrite <- app_assoc. exact H.
Qed.

(** ** Reading and writing a field per category *)

Lemma get_set_same {A} (c : Category) (v : A) (p : PerCategory A) :
  get c (set c v p) = v.
Proof. destruct c; reflexivity. Qed.

Lemma get_set_other {A} (c c' : Category) (v : A) (p : PerCategory A) :
  c <> c' -> get c' (set c v p) = get c' p.
Proof. destruct c, c'; simpl; congruence. Qed.

Lemma set_set {A} (c : Category) (u v : A) (p : PerCategory A) :
  set c v (set c u p) = set c v p.
Proof. destruct c; reflexivity. Qed.

(** ** The validity test *)

(** The test reads the clock once, and only when there is a timestamp that
    is not falsy; it changes nothing else. *)
Lemma _isCacheValid_eq (type : Category) (w : World) :
  _isCacheValid type w =
  match lastRefreshAt type w with
  | None => (false, w)
  | Some t =>
      if t =? 0 then (false, w)
      else (lt_ttl (clock w (ticks w) - t) (CACHE_TTL (cache w)), tick w)
  end.
Proof.
  unfold _isCacheValid, lastRefreshAt, bind, this, ret, Date_now, tick.
  destruct (get type (lastUpdate (cache w))) as [t|]; [|reflexivity].
  simpl. destruct (t =? 0); reflexivity.
Qed.

Lemma _isCacheValid_cache (type : Category) (w : World) :
  cache (snd (_isCacheValid type w)) = cache w
  /\ upstreamCalls (snd (_isCacheValid type w)) = upstreamCalls w
  /\ clock (snd (_isCacheValid type w)) = clock w.
Proof.
  rewrite _isCacheValid_eq.
  destruct (lastRefreshAt type w) as [t|]; [|auto].
  destruct (t =? 0); auto.
Qed.

Lemma _isCacheValid_true_inv (type : Category) (w : World) :
  fst (_isCacheValid type w) = true ->
  exists t, lastRefreshAt type w = Some t /\ (t =? 0) = false
            /\ _isCacheValid type w = (true, tick w).
Proof.
  rewrite _isCacheValid_eq.
  destruct (lastRefreshAt type w) as [t|]; [|discriminate].
  destruct (t =? 0) eqn:E; [discriminate|].
  simpl. intros ->. eauto.
Qed.

Lemma getCacheAge_eq (type : Category) (w : World) :
  getCacheAge type w =
  match lastRefreshAt type w with
  | None => ("Never"%string, w)
  | Some t =>
      if t =? 0 then ("Never"%string, w)
      else (age_text (clock w (ticks w) - t), tick w)
  end.
Proof.
  unfold getCacheAge, lastRefreshAt, bind, this, ret, Date_now, tick.
  destruct (get type (lastUpdate (cache w))) as [t|]; [|reflexivity].
  simpl. destruct (t =? 0); reflexivity.
Qed.

Lemma getCacheAge_world (type : Category) (w : World) :
  snd (getCacheAge type w) = snd (_isCacheValid type w).
Proof.
  rewrite _isCacheValid_eq, getCacheAge_eq.
  destruct (lastRefreshAt type w) as [t|]; [|reflexivity].
  destruct (t =? 0); reflexivity.
Qed.

(** ** Hit or miss *)

Lemma ensure_hit (type : Category) (response : Response) (w : World) :
  serves_from_cache type w = true ->
  run (ensure type) [response] w =
  (Fulfilled (map_values (entries type w)),
   with_cache (incr_hits type (cache w)) (tick (tick w))).
Proof.
  unfold serves_from_cache, entries. intro Hhit.
  apply andb_prop in Hhit as [Hvalid Hsize].
  destruct (_isCacheValid_true_inv type w Hvalid) as (t & Ht & Ht0 & Hv).
  unfold run, ensure, values_of, bind, this. rewrite Hv. simpl. rewrite Hsize.
  rewrite getCacheAge_eq. unfold lastRefreshAt in *. simpl.
  rewrite Ht, Ht0. simpl. reflexivity.
Qed.

Lemma ensure_miss (type : Category) (response : Response) (w : World) :
  serves_from_cache type w = false ->
  run (ensure type) [response] w =
  run (refresh type) [response]
      (with_cache (incr_misses type (cache w)) (snd (_isCacheValid type w)))
  /\ upstreamCalls (snd (run (ensure type) [response] w)) =
     upstreamCalls w ++ [type].
Proof.
  unfold serves_from_cache, entries. intro Hhit.
  unfold run, ensure, ensure_resume, values_of, bind, this.
  destruct (_isCacheValid_cache type w) as (Hc & Hu & _).
  destruct (_isCacheValid type w) as [valid w1]. simpl in *.
  rewrite Hc, Hhit.
  unfold modify, refresh, refresh_resume, values_of, bind, call_upstream,
    ret, with_cache, this.
  simpl. rewrite Hc, Hu.
  destruct response as [records|error]; simpl; split; reflexivity.
Qed.

(** ** What a refresh does *)

(** A refresh that upstream answers with [records]. *)
Lemma run_refresh_resolves (type : Category) (records : list CachedRecord)
  (w : World) :
  run (refresh type) [Resolves records] w =
  (Fulfilled (map_values (set_each [] records)),
   mkWorld
     (set_lastUpdate type (Some (clock w (ticks w)))
        (set_map type (set_each [] records) (incr_refreshes type (cache w))))
     (clock w) (S (ticks w)) (upstreamCalls w ++ [type])).
Proof.
  unfold run, refresh, refresh_resume, values_of, bind, modify,
    call_upstream, ret, Date_now, this.
  simpl. unfold map_clear, set_lastUpdate, set_map. simpl.
  rewrite !get_set_same, ?set_set. reflexivity.
Qed.

(** A refresh whose upstream call fails. *)
Lemma run_refresh_rejects (type : Category) (error : Error) (w : World) :
  run (refresh type) [Rejects error] w =
  (Rejected error,
   mkWorld (incr_refreshes type (cache w)) (clock w) (ticks w)
           (upstreamCalls w ++ [type])).
Proof. reflexivity. Qed.

(** A miss followed by the response of upstream. *)
Lemma run_ensure_miss (type : Category) (response : Response) (w : World) :
  serves_from_cache type w = false ->
  run (ensure type) [response] w =
  run (refresh type) [response]
      (with_cache (incr_misses type (cache w)) (snd (_isCacheValid type w))).
Proof.
  intro H. apply ensure_miss, H.
Qed.

(** ** Statistics *)

Lemma Category_eqb_eq (a b : Category) : Category_eqb a b = true <-> a = b.
Proof. destruct a, b; simpl; split; congruence. Qed.

Lemma getCacheAge_cache (type : Category) (w : World) :
  cache (snd (getCacheAge type w)) = cache w
  /\ upstreamCalls (snd (getCacheAge type w)) = upstreamCalls w
  /\ clock (snd (getCacheAge type w)) = clock w.
Proof. rewrite getCacheAge_world. apply _isCacheValid_cache. Qed.

(** Reading the statistics of a category reads the clock and nothing
    else. *)
Lemma categoryStats_eq (type : Category) (w : World) :
  categoryStats type w =
  (CategoryStats.mk
     (map_size (entries type w)) (lastRefreshAt type w)
     (fst (getCacheAge type w))
     (fst (_isCacheValid type (snd (getCacheAge type w))))
     (get type (hits (stats (cache w))))
     (get type (misses (stats (cache w))))
     (get type (refreshes (stats (cache w)))),
   snd (_isCacheValid type (snd (getCacheAge type w)))).
Proof.
  unfold categoryStats, bind, this, ret, entries, lastRefreshAt.
  destruct (getCacheAge type w) as [age w1]. simpl.
  destruct (_isCacheValid type w1) as [valid w2]. reflexivity.
Qed.

Lemma categoryStats_cache (type : Category) (w : World) :
  cache (snd (categoryStats type w)) = cache w
  /\ upstreamCalls (snd (categoryStats type w)) = upstreamCalls w
  /\ clock (snd (categoryStats type w)) = clock w.
Proof.
  rewrite categoryStats_eq. simpl.
  destruct (_isCacheValid_cache type (snd (getCacheAge type w)))
    as (H1 & H2 & H3).
  destruct (getCacheAge_cache type w) as (G1 & G2 & G3).
  rewrite H1, H2, H3. auto.
Qed.

Lemma getStats_eq (fl : Q -> Q) (w : World) :
  let s := stats (cache w) in
  let totalHits :=
    (tags (hits s) + correspondents (hits s) + documentTypes (hits s))%nat in
  let totalMisses :=
    (tags (misses s) + correspondents (misses s)
     + documentTypes (misses s))%nat in
  let w1 := snd (categoryStats Tags w) in
  let w2 := snd (categoryStats Correspondents w1) in
  getStats fl w =
  (mkSnapshot
     (mkPer (fst (categoryStats Tags w))
            (fst (categoryStats Correspondents w1))
            (fst (categoryStats DocumentTypes w2)))
     (Overall.mk totalHits totalMisses (totalHits + totalMisses)
        (hitRate_of fl totalHits (totalHits + totalMisses))
        (option_map (fun ttl => fl (inject_Z ttl / 60000)%Q)
           (CACHE_TTL (cache w)))),
   after_getStats w).
Proof.
  unfold getStats, after_getStats, bind, this, ret. simpl.
  destruct (categoryStats Tags w) as [t w1]. simpl.
  destruct (categoryStats Correspondents w1) as [co w2]. simpl.
  destruct (categoryStats DocumentTypes w2) as [d w3]. reflexivity.
Qed.

Lemma after_getStats_cache (w : World) :
  cache (after_getStats w) = cache w
  /\ upstreamCalls (after_getStats w) = upstreamCalls w
  /\ clock (after_getStats w) = clock w.
Proof.
  unfold after_getStats.
  destruct (categoryStats_cache DocumentTypes
    (snd (categoryStats Correspondents (snd (categoryStats Tags w)))))
    as (A1 & A2 & A3).
  destruct (categoryStats_cache Correspondents (snd (categoryStats Tags w)))
    as (B1 & B2 & B3).
  destruct (categoryStats_cache Tags w) as (C1 & C2 & C3).
  rewrite A1, A2, A3, B1, B2, B3, C1, C2, C3. auto.
Qed.

(** The counters [getStats] reports for a category are the counters of
    the cache. *)
Lemma getStats_counters (fl : Q -> Q) (type : Category) (w : World) :
  let report := get type (perCategory (fst (getStats fl w))) in
  CategoryStats.hits report = get type (hits (stats (cache w)))
  /\ CategoryStats.misses report = get type (misses (stats (cache w)))
  /\ CategoryStats.refreshes report = get type (refreshes (stats (cache w))).
Proof.
  rewrite getStats_eq. simpl.
  destruct (categoryStats_cache Tags w) as (C1 & _).
  destruct (categoryStats_cache Correspondents (snd (categoryStats Tags w)))
    as (B1 & _).
  destruct type; simpl; rewrite categoryStats_eq; simpl;
    rewrite ?B1, ?C1; auto.
Qed.

(** ** [refreshAll] *)

Lemma refresh_resume_resolves (type : Category)
  (records : list CachedRecord) (w : World) :
  refresh_resume type (Resolves records) w =
  (Fulfilled (map_values (set_each [] records)),
   mkWorld
     (set_lastUpdate type (Some (clock w (ticks w)))
        (set_map type (set_each [] records) (cache w)))
     (clock w) (S (ticks w)) (upstreamCalls w)).
Proof.
  unfold refresh_resume, values_of, bind, modify, ret, Date_now, this.
  simpl. unfold map_clear, set_lastUpdate, set_map. simpl.
  rewrite !get_set_same, ?set_set. reflexivity.
Qed.

(** What the code after the [await] of a refresh leaves alone, and what it
    does to each category. *)
Lemma refresh_resume_effect (type : Category) (response : Response)
  (w : World) :
  let w' := snd (refresh_resume type response w) in
  stats (cache w') = stats (cache w)
  /\ CACHE_TTL (cache w') = CACHE_TTL (cache w)
  /\ upstreamCalls w' = upstreamCalls w
  /\ clock w' = clock w
  /\ awaits_upstream (fst (refresh_resume type response w)) = false
  /\ forall t,
       match response with
       | Resolves records =>
           if Category_eqb type t
           then entries t w' = set_each [] records
                /\ is_absent (lastRefreshAt t w') = false
           else entries t w' = entries t w
                /\ lastRefreshAt t w' = lastRefreshAt t w
       | Rejects _ =>
           entries t w' = entries t w
           /\ lastRefreshAt t w' = lastRefreshAt t w
       end.
Proof.
  destruct response as [records|error].
  - rewrite refresh_resume_resolves. unfold entries, lastRefreshAt. simpl.
    repeat split; try reflexivity.
    intro t. destruct (Category_eqb type t) eqn:E.
    + apply Category_eqb_eq in E. subst t. rewrite !get_set_same. auto.
    + assert (type <> t) by (intro H; apply Category_eqb_eq in H; congruence).
      rewrite !get_set_other by assumption. auto.
  - simpl. repeat split; reflexivity.
Qed.

Lemma Category_eqb_refl (t : Category) : Category_eqb t t = true.
Proof. destruct t; reflexivity. Qed.

(** One response arriving during [refreshAll]. *)
Lemma refreshAll_deliver_effect (type : Category) (response : Response)
  (call : RefreshAll) (w : World) :
  children_ok call ->
  let call' := fst (refreshAll_deliver type response call w) in
  let w' := snd (refreshAll_deliver type response call w) in
  children_ok call'
  /\ (forall t, awaits_upstream (get t (children call')) =
                awaits_upstream (get t (children call))
                && negb (Category_eqb type t))
  /\ stats (cache w') = stats (cache w)
  /\ CACHE_TTL (cache w') = CACHE_TTL (cache w)
  /\ upstreamCalls w' = upstreamCalls w
  /\ clock w' = clock w
  /\ forall t,
       match response with
       | Resolves records =>
           if Category_eqb type t
              && awaits_upstream (get type (children call))
           then entries t w' = set_each [] records
                /\ is_absent (lastRefreshAt t w') = false
           else entries t w' = entries t w
                /\ lastRefreshAt t w' = lastRefreshAt t w
       | Rejects _ =>
           entries t w' = entries t w
           /\ lastRefreshAt t w' = lastRefreshAt t w
       end.
Proof.
  intros Hok call' w'. subst call' w'.
  unfold refreshAll_deliver.
  destruct (Hok type) as [Hchild|Hchild].
  - rewrite Hchild. unfold bind.
    pose proof (refresh_resume_effect type response w) as Heff.
    destruct (refresh_resume type response w) as [p w1].
    simpl in Heff. destruct Heff as (Hs & Httl & Hu & Hc & Hp & Hcat).
    assert (Hok' : forall o,
      children_ok (mkRefreshAll (startTime call)
                     (set type p (children call)) o)).
    { intros o t. simpl. destruct (Category_eqb type t) eqn:E.
      - apply Category_eqb_eq in E. subst t. rewrite get_set_same. now right.
      - rewrite get_set_other
          by (intro H; apply Category_eqb_eq in H; congruence).
        apply Hok. }
    assert (Hwait : forall o t,
      awaits_upstream
        (get t (children (mkRefreshAll (startTime call)
                            (set type p (children call)) o))) =
      awaits_upstream (get t (children call)) && negb (Category_eqb type t)).
    { intros o t. simpl. destruct (Category_eqb type t) eqn:E.
      - apply Category_eqb_eq in E. subst t. rewrite get_set_same, Hp.
        now rewrite andb_false_r.
      - rewrite get_set_other
          by (intro H; apply Category_eqb_eq in H; congruence).
        now rewrite andb_true_r. }
    assert (Hfin : forall o w2, w2 = w1 \/ w2 = tick w1 ->
      children_ok (mkRefreshAll (startTime call)
                     (set type p (children call)) o)
      /\ (forall t,
            awaits_upstream (get t (set type p (children call))) =
            awaits_upstream (get t (children call))
            && negb (Category_eqb type t))
      /\ stats (cache w2) = stats (cache w)
      /\ CACHE_TTL (cache w2) = CACHE_TTL (cache w)
      /\ upstreamCalls w2 = upstreamCalls w
      /\ clock w2 = clock w
      /\ forall t,
           match response with
           | Resolves records =>
               if Category_eqb type t
                  && awaits_upstream (AwaitUpstream type (refresh_resume type))
               then entries t w2 = set_each [] records
                    /\ is_absent (lastRefreshAt t w2) = false
               else entries t w2 = entries t w
                    /\ lastRefreshAt t w2 = lastRefreshAt t w
           | Rejects _ =>
               entries t w2 = entries t w
               /\ lastRefreshAt t w2 = lastRefreshAt t w
           end).
    { intros o w2 Hw2.
      assert (Hsame : cache w2 = cache w1 /\ upstreamCalls w2 = upstreamCalls w1
                      /\ clock w2 = clock w1)
        by (destruct Hw2; subst; auto).
      destruct Hsame as (E1 & E2 & E3).
      split; [apply Hok'|]. split; [apply (Hwait o)|].
      unfold entries, lastRefreshAt in *. rewrite E1, E2, E3.
      repeat (split; [assumption|]).
      intro t. specialize (Hcat t). simpl. rewrite andb_true_r. exact Hcat. }
    destruct (outcome call) as [o|]; simpl.
    + apply (Hfin (Some o) w1). now left.
    + destruct p as [a|e|? ?|?]; simpl; try discriminate;
        try match goal with
            | |- context [if is_fulfilled (tags ?c) && ?x && ?y
                          then _ else _] =>
                destruct (is_fulfilled (tags c) && x && y)
            end;
        simpl;
        first [ apply (Hfin _ w1); now left
              | apply (Hfin _ (tick w1)); now right ].
  - assert (E : refreshAll_deliver type response call w = (call, w)).
    { unfold refreshAll_deliver.
      destruct (get type (children call)); try reflexivity. discriminate. }
    unfold refreshAll_deliver in E. rewrite E. simpl.
    repeat split; auto.
    + intro t. destruct (Category_eqb type t) eqn:Et.
      * apply Category_eqb_eq in Et. subst t. rewrite Hchild. reflexivity.
      * now rewrite andb_true_r.
    + intro t. rewrite Hchild, andb_false_r.
      destruct response; auto.
Qed.

(** All the responses of a [refreshAll]: counters, time-to-live and log
    stay; a category whose refresh receives records holds these records
    and has a timestamp; any other category is as before. *)
Lemma refreshAll_settle_effect (arrivals : list (Category * Response)) :
  forall (call : RefreshAll) (w : World),
  children_ok call ->
  let w' := snd (refreshAll_settle arrivals call w) in
  stats (cache w') = stats (cache w)
  /\ CACHE_TTL (cache w') = CACHE_TTL (cache w)
  /\ upstreamCalls w' = upstreamCalls w
  /\ clock w' = clock w
  /\ forall t,
       match (if awaits_upstream (get t (children call))
              then first_arrival t arrivals else None) with
       | Some (Resolves records) =>
           entries t w' = set_each [] records
           /\ is_absent (lastRefreshAt t w') = false
       | _ =>
           entries t w' = entries t w
           /\ lastRefreshAt t w' = lastRefreshAt t w
       end.
Proof.
  induction arrivals as [|[type response] rest IH]; intros call w Hok.
  - simpl. repeat split; try reflexivity.
    intro t. destruct (awaits_upstream (get t (children call))); auto.
  - simpl. unfold bind.
    pose proof (refreshAll_deliver_effect type response call w Hok) as Hd.
    destruct (refreshAll_deliver type response call w) as [call1 w1].
    simpl in Hd. destruct Hd as (Hok1 & Hwait & Hs & Httl & Hu & Hc & Hcat).
    specialize (IH call1 w1 Hok1). simpl in IH.
    destruct IH as (Is & Ittl & Iu & Ic & Icat).
    split; [congruence|]. split; [congruence|].
    split; [congruence|]. split; [congruence|].
    intro t. specialize (Icat t). specialize (Hcat t).
    rewrite (Hwait t) in Icat.
    destruct (Category_eqb type t) eqn:Et.
    + apply Category_eqb_eq in Et. subst t.
      rewrite andb_false_r in Icat. destruct Icat as [I1 I2].
      rewrite I1, I2.
      destruct (awaits_upstream (get type (children call))).
      * destruct response; exact Hcat.
      * destruct response; exact Hcat.
    + rewrite andb_true_r in Icat.
      assert (Hsame : entries t w1 = entries t w
                      /\ lastRefreshAt t w1 = lastRefreshAt t w)
        by (destruct response; exact Hcat).
      destruct Hsame as [H1 H2]. rewrite <- H1, <- H2. exact Icat.
Qed.

(** [refreshAll] up to [await Promise.all]: three refreshes counted, three
    upstream calls made, in this order. *)
Lemma refreshAll_start (w : World) :
  refreshAll w =
  (mkRefreshAll (clock w (ticks w))
     (mkPer (AwaitUpstream Tags (refresh_resume Tags))
            (AwaitUpstream Correspondents (refresh_resume Correspondents))
            (AwaitUpstream DocumentTypes (refresh_resume DocumentTypes)))
     None,
   mkWorld
     (incr_refreshes DocumentTypes
        (incr_refreshes Correspondents (incr_refreshes Tags (cache w))))
     (clock w) (S (ticks w))
     (upstreamCalls w ++ [Tags; Correspondents; DocumentTypes])).
Proof.
  unfold refreshAll, refreshTags, refreshCorrespondents,
    refreshDocumentTypes, refresh, bind, modify, call_upstream, ret,
    Date_now.
  simpl. rewrite <- !app_assoc. reflexivity.
Qed.

Lemma run_refreshAll_effect (arrivals : list (Category * Response))
  (w : World) :
  let w' := snd (run_refreshAll arrivals w) in
  hits (stats (cache w')) = hits (stats (cache w))
  /\ misses (stats (cache w')) = misses (stats (cache w))
  /\ (forall t, get t (refreshes (stats (cache w'))) =
                S (get t (refreshes (stats (cache w)))))
  /\ CACHE_TTL (cache w') = CACHE_TTL (cache w)
  /\ upstreamCalls w' =
     upstreamCalls w ++ [Tags; Correspondents; DocumentTypes]
  /\ clock w' = clock w
  /\ forall t,
       match first_arrival t arrivals with
       | Some (Resolves records) =>
           entries t w' = set_each [] records
           /\ is_absent (lastRefreshAt t w') = false
       | _ =>
           entries t w' = entries t w
           /\ lastRefreshAt t w' = lastRefreshAt t w
       end.
Proof.
  unfold run_refreshAll, bind. rewrite refreshAll_start.
  set (call0 := mkRefreshAll _ _ _). set (w0 := mkWorld _ _ _ _).
  assert (Hok : children_ok call0) by (intros []; left; reflexivity).
  destruct (refreshAll_settle_effect arrivals call0 w0 Hok)
    as (Hs & Httl & Hu & Hc & Hcat).
  simpl. rewrite Hs, Httl, Hu, Hc.
  repeat split; try reflexivity.
  - intros []; reflexivity.
  - intro t. specialize (Hcat t).
    assert (Hw : awaits_upstream (get t (children call0)) = true)
      by (destruct t; reflexivity).
    rewrite Hw in Hcat. exact Hcat.
Qed.

(** ** Counting hits and misses *)

Lemma called_upstream_same (w w' : World) :
  upstreamCalls w' = upstreamCalls w -> called_upstream w w' = false.
Proof.
  intro H. unfold called_upstream. now rewrite H, Nat.eqb_refl.
Qed.

Lemma called_upstream_more (w w' : World) (t : Category) (l : list Category) :
  upstreamCalls w' = upstreamCalls w ++ t :: l -> called_upstream w w' = true.
Proof.
  intro H. unfold called_upstream. rewrite H, length_app. simpl.
  destruct (Nat.eqb_spec (List.length (upstreamCalls w)
                          + S (List.length l)) (List.length (upstreamCalls w)));
    [lia | reflexivity].
Qed.

Lemma get_set {A} (c t : Category) (v : A) (p : PerCategory A) :
  get t (set c v p) = if Category_eqb c t then v else get t p.
Proof. destruct c, t; reflexivity. Qed.

(** What a refresh run to its end does to the counters. *)
Lemma run_refresh_stats (type : Category) (response : Response) (w : World) :
  let w' := snd (run (refresh type) [response] w) in
  hits (stats (cache w')) = hits (stats (cache w))
  /\ misses (stats (cache w')) = misses (stats (cache w))
  /\ upstreamCalls w' = upstreamCalls w ++ [type].
Proof.
  destruct response.
  - rewrite run_refresh_resolves. simpl. auto.
  - rewrite run_refresh_rejects. simpl. auto.
Qed.

(** A call other than [resetStats] adds to the hit counter of a category
    what it counts as a hit, and to the miss counter what it counts as a
    miss. *)
Lemma run_call_counters (fl : Q -> Q) (call : Call) (type : Category)
  (w : World) :
  is_reset call = false ->
  let w' := run_call fl call w in
  get type (hits (stats (cache w'))) =
    (get type (hits (stats (cache w))) + counts_as false type call w w')%nat
  /\ get type (misses (stats (cache w'))) =
    (get type (misses (stats (cache w))) + counts_as true type call w w')%nat.
Proof.
  intros Hreset w'. subst w'.
  destruct call as [t r|t r|arrivals| |t r|t| |]; simpl in *;
    try discriminate; rewrite ?Nat.add_0_r.
  - destruct (serves_from_cache t w) eqn:Hs.
    + rewrite (ensure_hit t r w Hs). simpl.
      rewrite called_upstream_same by reflexivity. simpl.
      rewrite get_set, andb_true_r, andb_false_r.
      destruct (Category_eqb t type) eqn:E.
      * apply Category_eqb_eq in E. subst. split; lia.
      * split; lia.
    + destruct (ensure_miss t r w Hs) as [Hrun Hcalls].
      rewrite (called_upstream_more _ _ _ _ Hcalls). simpl.
      rewrite andb_true_r, andb_false_r.
      rewrite Hrun.
      destruct (run_refresh_stats t r
        (with_cache (incr_misses t (cache w)) (snd (_isCacheValid t w))))
        as (Hh & Hm & _).
      rewrite Hh, Hm. simpl. rewrite get_set.
      destruct (Category_eqb t type) eqn:E.
      * apply Category_eqb_eq in E. subst. split; lia.
      * split; lia.
  - destruct (run_refresh_stats t r w) as (Hh & Hm & _).
    now rewrite Hh, Hm.
  - destruct (run_refreshAll_effect arrivals w) as (Hh & Hm & _).
    now rewrite Hh, Hm.
  - auto.
  - auto.
  - destruct (getCacheAge_cache t w) as (Hc & _). now rewrite Hc.
  - rewrite getStats_eq. simpl.
    destruct (after_getStats_cache w) as (Hc & _). now rewrite Hc.
Qed.

Lemma run_calls_counters (fl : Q -> Q) (type : Category) (calls : list Call) :
  forall w,
  forallb (fun call => negb (is_reset call)) calls = true ->
  get type (hits (stats (cache (run_calls fl calls w)))) =
    (get type (hits (stats (cache w))) + hit_count fl type calls w)%nat
  /\ get type (misses (stats (cache (run_calls fl calls w)))) =
    (get type (misses (stats (cache w))) + miss_count fl type calls w)%nat.
Proof.
  unfold hit_count, miss_count.
  induction calls as [|call rest IH]; intros w Hno; simpl.
  - split; lia.
  - simpl in Hno. apply andb_prop in Hno as [Hc Hrest].
    apply negb_true_iff in Hc.
    destruct (IH (run_call fl call w) Hrest) as [IHh IHm].
    destruct (run_call_counters fl call type w Hc) as [Hh Hm].
    rewrite IHh, IHm, Hh, Hm. split; lia.
Qed.

(** ** The hit rate *)

(** [toFixed(2)] is within half a hundredth. *)
Lemma toFixed2_near (x : Q) :
  (Qabs (inject_Z (toFixed2 x) - x * 100) <= 1 # 2)%Q.
Proof.
  unfold toFixed2. apply Qabs_Qle_condition.
  destruct (Qle_bool 0 x).
  - pose proof (Qfloor_le (x * 100 + (1 # 2))) as H1.
    pose proof (Qlt_floor (x * 100 + (1 # 2))) as H2.
    rewrite inject_Z_plus in H2. change (inject_Z 1) with 1%Q in H2.
    split; lra.
  - pose proof (Qfloor_le (- x * 100 + (1 # 2))) as H1.
    pose proof (Qlt_floor (- x * 100 + (1 # 2))) as H2.
    rewrite inject_Z_plus in H2. change (inject_Z 1) with 1%Q in H2.
    rewrite inject_Z_opp. split; lra.
Qed.

Lemma ratio_bounds (h t : nat) :
  (0 < t)%nat -> (h <= t)%nat ->
  (0 <= Q_of_nat h / Q_of_nat t)%Q /\ (Q_of_nat h / Q_of_nat t <= 1)%Q.
Proof.
  intros Ht Hh. unfold Q_of_nat.
  assert (Ht' : (0 < inject_Z (Z.of_nat t))%Q).
  { change 0%Q with (inject_Z 0). rewrite <- Zlt_Qlt. lia. }
  split.
  - apply Qle_shift_div_l; [exact Ht'|]. rewrite Qmult_0_l.
    change 0%Q with (inject_Z 0). rewrite <- Zle_Qle. lia.
  - apply Qle_shift_div_r; [exact Ht'|]. rewrite Qmult_1_l.
    rewrite <- Zle_Qle. lia.
Qed.

(** The two roundings of the quotient and the product and the rounding of
    [toFixed] add up to half a hundredth and 101 spacings. *)
Lemma hitRate_near (fl : Q -> Q) (h t : nat) :
  rounds_to_double fl -> (0 < t)%nat -> (h <= t)%nat ->
  (Qabs (inject_Z (toFixed2 (fl (fl (Q_of_nat h / Q_of_nat t) * 100))) / 100
         - Q_of_nat h / Q_of_nat t * 100)
   <= (1 # 200) + 101 * double_spacing)%Q.
Proof.
  intros Hfl Ht Hh.
  destruct (ratio_bounds h t Ht Hh) as [Hq0 Hq1].
  set (q := (Q_of_nat h / Q_of_nat t)%Q) in *.
  assert (Ha : (Qabs (fl q - q) <= double_spacing)%Q) by (apply Hfl; lra).
  set (a := fl q) in *.
  apply Qabs_Qle_condition in Ha. unfold double_spacing in *.
  assert (Hb : (Qabs (fl (a * 100) - a * 100) <= double_spacing)%Q)
    by (apply Hfl; lra).
  set (b := fl (a * 100)%Q) in *.
  apply Qabs_Qle_condition in Hb. unfold double_spacing in *.
  pose proof (toFixed2_near b) as Hn.
  apply Qabs_Qle_condition in Hn.
  set (n := inject_Z (toFixed2 b)) in *.
  apply Qabs_Qle_condition.
  assert (E : (n / 100 == n * (1 # 100))%Q) by reflexivity.
  rewrite E. split; lra.
Qed.

Lemma new_World_counters (env : option string) (clock0 : nat -> Z)
  (type : Category) :
  get type (hits (stats (cache (new_World env clock0)))) = O
  /\ get type (misses (stats (cache (new_World env clock0)))) = O.
Proof. destruct type; auto. Qed.

(** ** Timestamps and entries along a sequence of calls *)

Lemma set_each_app (m : JsMap) (l1 l2 : list CachedRecord) :
  set_each m (l1 ++ l2) = set_each (set_each m l1) l2.
Proof.
  revert m. induction l1 as [|r l1 IH]; intro m; simpl.
  - reflexivity.
  - apply IH.
Qed.

(** What a refresh run to its end does to each category. *)
Lemma run_refresh_category (type : Category) (response : Response)
  (w : World) (t : Category) :
  let w' := snd (run (refresh type) [response] w) in
  match response with
  | Resolves records =>
      if Category_eqb type t
      then entries t w' = set_each [] records
           /\ is_absent (lastRefreshAt t w') = false
      else entries t w' = entries t w
           /\ lastRefreshAt t w' = lastRefreshAt t w
  | Rejects _ =>
      entries t w' = entries t w /\ lastRefreshAt t w' = lastRefreshAt t w
  end.
Proof.
  destruct response as [records|error].
  - rewrite run_refresh_resolves. unfold entries, lastRefreshAt. simpl.
    rewrite !get_set. destruct (Category_eqb type t); auto.
  - rewrite run_refresh_rejects. auto.
Qed.

(** What one call does to the timestamp and the entries of a category. *)
Lemma run_call_category (fl : Q -> Q) (call : Call) (type : Category)
  (w : World) :
  let w' := run_call fl call w in
  match call with
  | CallClearAll => entries type w' = [] /\ lastRefreshAt type w' = None
  | CallAdd t record =>
      lastRefreshAt type w' = lastRefreshAt type w
      /\ entries type w' =
         if Category_eqb t type
         then map_set (entries type w) (id record) record
         else entries type w
  | _ =>
      if refresh_succeeds type call w
      then is_absent (lastRefreshAt type w') = false
      else entries type w' = entries type w
           /\ lastRefreshAt type w' = lastRefreshAt type w
  end.
Proof.
  destruct call as [t r|t r|arrivals| |t r|t| |]; simpl.
  - destruct (serves_from_cache t w) eqn:Hs.
    + rewrite (ensure_hit t r w Hs).
      destruct r; simpl; rewrite ?andb_false_r; auto.
    + rewrite (run_ensure_miss t r w Hs).
      pose proof (run_refresh_category t r
        (with_cache (incr_misses t (cache w)) (snd (_isCacheValid t w)))
        type) as Hr.
      simpl in Hr. destruct r as [records|error].
      * simpl. rewrite andb_true_r.
        destruct (Category_eqb t type); [tauto | exact Hr].
      * exact Hr.
  - pose proof (run_refresh_category t r w type) as Hr. simpl in Hr.
    destruct r as [records|error].
    + destruct (Category_eqb t type); [tauto | exact Hr].
    + exact Hr.
  - destruct (run_refreshAll_effect arrivals w) as (_ & _ & _ & _ & _ & _ & H).
    specialize (H type).
    destruct (first_arrival type arrivals) as [[records|error]|];
      [tauto | exact H | exact H].
  - destruct type; split; reflexivity.
  - unfold addOne, modify, entries, lastRefreshAt. simpl.
    rewrite get_set. split; [reflexivity|].
    destruct (Category_eqb t type) eqn:E; [|reflexivity].
    apply Category_eqb_eq in E. now subst.
  - unfold entries, lastRefreshAt.
    destruct (getCacheAge_cache t w) as (Hc & _). now rewrite Hc.
  - rewrite getStats_eq. simpl. unfold entries, lastRefreshAt.
    destruct (after_getStats_cache w) as (Hc & _). now rewrite Hc.
  - auto.
Qed.

(** Along any sequence of calls: the timestamp of a category is missing
    exactly when no refresh of it has succeeded since the last [clearAll],
    and then its entries are the records added since. *)
Lemma run_calls_category (fl : Q -> Q) (type : Category)
  (calls : list Call) :
  forall (w : World) (before : bool) (added : list CachedRecord),
  is_absent (lastRefreshAt type w) = negb before ->
  (is_absent (lastRefreshAt type w) = true ->
   entries type w = set_each [] added) ->
  let w' := run_calls fl calls w in
  is_absent (lastRefreshAt type w') =
    negb (refreshed_since_clear fl type calls w before)
  /\ (is_absent (lastRefreshAt type w') = true ->
      entries type w' = set_each [] (added_since_clear type calls added)).
Proof.
  induction calls as [|call rest IH]; intros w before added Habs Hent.
  - simpl. auto.
  - simpl. pose proof (run_call_category fl call type w) as Hcall.
    simpl in Hcall.
    destruct call as [t r|t r|arrivals| |t r|t| |];
      try (apply IH;
           [ destruct (refresh_succeeds type _ w);
             [ rewrite orb_true_r; exact Hcall
             | rewrite orb_false_r; destruct Hcall as [_ ->]; exact Habs ]
           | destruct (refresh_succeeds type _ w);
             [ rewrite Hcall; discriminate
             | destruct Hcall as [-> ->]; exact Hent ] ]; fail).
    + destruct Hcall as [He Hl]. apply IH.
      * now rewrite Hl.
      * intros _. now rewrite He.
    + destruct Hcall as [Hl He]. apply IH.
      * rewrite Hl. simpl. rewrite orb_false_r. exact Habs.
      * rewrite Hl, He. intro H. rewrite (Hent H).
        destruct (Category_eqb t type); [|reflexivity].
        rewrite set_each_app. reflexivity.
Qed.

(** ** Calls in flight together *)

Lemma serves_from_cache_cong (type : Category) (w1 w2 : World) :
  lastRefreshAt type w1 = lastRefreshAt type w2 ->
  entries type w1 = entries type w2 ->
  CACHE_TTL (cache w1) = CACHE_TTL (cache w2) ->
  clock w1 (ticks w1) = clock w2 (ticks w2) ->
  serves_from_cache type w1 = serves_from_cache type w2.
Proof.
  intros H1 H2 H3 H4. unfold serves_from_cache.
  rewrite !_isCacheValid_eq, H1, H2, H3, H4.
  destruct (lastRefreshAt type w2) as [t|]; [|reflexivity].
  destruct (t =? 0); reflexivity.
Qed.

Lemma _isCacheValid_ticks (type : Category) (w : World) :
  (ticks w <= ticks (snd (_isCacheValid type w)))%nat.
Proof.
  rewrite _isCacheValid_eq.
  destruct (lastRefreshAt type w) as [t|]; [|auto].
  destruct (t =? 0); simpl; auto.
Qed.

(** A missing [ensure] up to its suspension. *)
Lemma ensure_suspends (type : Category) (w : World) :
  serves_from_cache type w = false ->
  ensure type w =
  (ensure_suspended type,
   mkWorld (count_miss type (cache w)) (clock w)
           (ticks (snd (_isCacheValid type w)))
           (upstreamCalls w ++ [type])).
Proof.
  unfold serves_from_cache, entries. intro Hmiss.
  unfold ensure, bind, this.
  destruct (_isCacheValid_cache type w) as (Hc & Hu & Hk).
  destruct (_isCacheValid type w) as [valid w1]. simpl in *.
  rewrite Hc, Hmiss.
  unfold modify, refresh, bind, call_upstream, ret. simpl.
  rewrite Hc, Hu, Hk. reflexivity.
Qed.

Lemma count_miss_iter (type : Category) (n : nat) (c : MetadataCache) :
  let c' := Nat.iter n (count_miss type) c in
  maps c' = maps c /\ lastUpdate c' = lastUpdate c
  /\ CACHE_TTL c' = CACHE_TTL c
  /\ hits (stats c') = hits (stats c)
  /\ (forall t, get t (misses (stats c')) =
                if Category_eqb type t
                then (get t (misses (stats c)) + n)%nat
                else get t (misses (stats c)))
  /\ (forall t, get t (refreshes (stats c')) =
                if Category_eqb type t
                then (get t (refreshes (stats c)) + n)%nat
                else get t (refreshes (stats c))).
Proof.
  induction n as [|n IH]; simpl.
  - repeat split; try reflexivity;
      intro t; destruct (Category_eqb type t); lia.
  - destruct IH as (H1 & H2 & H3 & H4 & H5 & H6).
    repeat split; try assumption.
    + intro t. rewrite get_set. specialize (H5 t).
      destruct (Category_eqb type t) eqn:E; [|exact H5].
      apply Category_eqb_eq in E. subst t. rewrite H5. lia.
    + intro t. rewrite get_set. specialize (H6 t).
      destruct (Category_eqb type t) eqn:E; [|exact H6].
      apply Category_eqb_eq in E. subst t. rewrite H6. lia.
Qed.

Lemma iter_shift {A} (f : A -> A) (n : nat) (x : A) :
  Nat.iter n f (f x) = f (Nat.iter n f x).
Proof. induction n as [|n IH]; simpl; [reflexivity | now rewrite IH]. Qed.

(** [n] calls of [ensure] in a row, each of which misses: each suspends
    after having counted a miss and a refresh and called upstream. *)
Lemma call_n_misses (type : Category) (n : nat) :
  forall w,
  (forall k, (ticks w <= k)%nat ->
             serves_from_cache type (at_reading k w) = false) ->
  let r := call_n n (ensure type) w in
  fst r = repeat (ensure_suspended type) n
  /\ cache (snd r) = Nat.iter n (count_miss type) (cache w)
  /\ upstreamCalls (snd r) = upstreamCalls w ++ repeat type n
  /\ clock (snd r) = clock w.
Proof.
  induction n as [|n IH]; intros w Hmiss.
  - simpl. rewrite app_nil_r. auto.
  - assert (H0 : serves_from_cache type w = false).
    { rewrite <- (Hmiss (ticks w) (Nat.le_refl _)).
      apply serves_from_cache_cong; reflexivity. }
    simpl. unfold bind. rewrite (ensure_suspends type w H0).
    set (w1 := mkWorld _ _ _ _).
    assert (H1 : forall k, (ticks w1 <= k)%nat ->
                 serves_from_cache type (at_reading k w1) = false).
    { intros k Hk. rewrite <- (Hmiss k).
      - apply serves_from_cache_cong; reflexivity.
      - pose proof (_isCacheValid_ticks type w). simpl in Hk. lia. }
    destruct (IH w1 H1) as (Hp & Hc & Hu & Hk).
    destruct (call_n n (ensure type) w1) as [rest w2]. simpl in *.
    subst rest. rewrite Hc, Hu, Hk.
    repeat split.
    + apply iter_shift.
    + rewrite <- app_assoc. reflexivity.
Qed.

(** One event on one call. *)
Lemma resume_thread (type : Category) (records : list CachedRecord)
  (e : Event) (s : Stage) (w : World) :
  answers_with records e ->
  (s <> Waiting -> entries type w = set_each [] records) ->
  let r := resume e (thread_at type records s) w in
  fst r = thread_at type records (advance e s)
  /\ (advance e s <> Waiting -> entries type (snd r) = set_each [] records)
  /\ (entries type w = set_each [] records ->
      entries type (snd r) = set_each [] records)
  /\ stats (cache (snd r)) = stats (cache w)
  /\ upstreamCalls (snd r) = upstreamCalls w.
Proof.
  intros He Hs.
  destruct e as [i response|i], s; simpl in *; try (repeat split; auto; fail).
  - subst response. rewrite refresh_resume_resolves.
    unfold entries. simpl. rewrite get_set_same. repeat split; auto.
  - unfold ensure_resume, values_of, bind, this, ret. simpl.
    fold (entries type w). rewrite Hs by discriminate.
    repeat split; auto.
Qed.

Lemma resume_nth_stages (type : Category) (records : list CachedRecord)
  (e : Event) (stages : list Stage) :
  forall (i : nat) (w : World),
  answers_with records e ->
  pool_ok type records stages w ->
  let r := resume_nth i e (List.map (thread_at type records) stages) w in
  fst r = List.map (thread_at type records) (advance_nth i e stages)
  /\ pool_ok type records (advance_nth i e stages) (snd r)
  /\ (entries type w = set_each [] records ->
      entries type (snd r) = set_each [] records)
  /\ stats (cache (snd r)) = stats (cache w)
  /\ upstreamCalls (snd r) = upstreamCalls w.
Proof.
  induction stages as [|s rest IH]; intros i w He Hok.
  - destruct i; simpl; repeat split; auto.
  - destruct i as [|j]; simpl; unfold bind.
    + assert (Hs : s <> Waiting -> entries type w = set_each [] records).
      { intro Hne. destruct Hok as [Hall|Hent]; [|exact Hent].
        inversion Hall. contradiction. }
      destruct (resume_thread type records e s w He Hs)
        as (Hp & Hadv & Hkeep & Hst & Hu).
      destruct (resume e (thread_at type records s) w) as [p w1].
      simpl in *. subst p. repeat split; auto.
      destruct s, e; simpl in *;
        try (right; apply Hadv; discriminate);
        destruct Hok as [Hall|Hent];
        try (left; exact Hall); try (right; apply Hkeep, Hent).
    + assert (Hok' : pool_ok type records rest w).
      { destruct Hok as [Hall|Hent]; [left|right; exact Hent].
        now inversion Hall. }
      destruct (IH j w He Hok') as (Hp & Hok1 & Hkeep & Hst & Hu).
      destruct (resume_nth j e (List.map (thread_at type records) rest) w)
        as [pool1 w1].
      simpl in *. subst pool1. repeat split; auto.
      destruct Hok as [Hall|Hent].
      * destruct Hok1 as [Hall1|Hent1]; [left|right; exact Hent1].
        constructor; [now inversion Hall | exact Hall1].
      * right. apply Hkeep, Hent.
Qed.

(** A schedule on calls that all wait at first. *)
Lemma event_loop_stages (type : Category) (records : list CachedRecord)
  (events : list Event) :
  forall (stages : list Stage) (w : World),
  Forall (answers_with records) events ->
  pool_ok type records stages w ->
  let r := event_loop events (List.map (thread_at type records) stages) w in
  fst r = List.map (thread_at type records) (stages_after events stages)
  /\ stats (cache (snd r)) = stats (cache w)
  /\ upstreamCalls (snd r) = upstreamCalls w.
Proof.
  induction events as [|e rest IH]; intros stages w Hall Hok.
  - simpl. auto.
  - simpl. unfold bind. inversion Hall as [|? ? He Hrest]; subst.
    destruct (resume_nth_stages type records e stages (target e) w He Hok)
      as (Hp & Hok1 & _ & Hst & Hu).
    destruct (resume_nth (target e) e
                (List.map (thread_at type records) stages) w) as [pool1 w1].
    simpl in *. subst pool1.
    destruct (IH _ w1 Hrest Hok1) as (Hp2 & Hst2 & Hu2).
    rewrite Hp2, Hst2, Hu2. auto.
Qed.

Lemma advance_nth_error (e : Event) (stages : list Stage) :
  forall i j,
  nth_error (advance_nth j e stages) i =
  option_map (fun s => if Nat.eqb j i then advance e s else s)
             (nth_error stages i).
Proof.
  induction stages as [|s rest IH]; intros i j.
  - destruct i, j; reflexivity.
  - destruct j as [|j], i as [|i]; simpl; try reflexivity.
    + destruct (nth_error rest i); reflexivity.
    + apply IH.
Qed.

Lemma stages_after_error (events : list Event) :
  forall stages i,
  nth_error (stages_after events stages) i =
  option_map (stage_of events i) (nth_error stages i).
Proof.
  induction events as [|e rest IH]; intros stages i; simpl.
  - destruct (nth_error stages i); reflexivity.
  - rewrite IH, advance_nth_error.
    destruct (nth_error stages i); reflexivity.
Qed.

(** ** What no call changes *)

Lemma run_refresh_ttl (type : Category) (response : Response) (w : World) :
  CACHE_TTL (cache (snd (run (refresh type) [response] w))) =
  CACHE_TTL (cache w)
  /\ clock (snd (run (refresh type) [response] w)) = clock w.
Proof.
  destruct response.
  - rewrite run_refresh_resolves. auto.
  - rewrite run_refresh_rejects. auto.
Qed.

(** The time-to-live and the clock are those of the start. *)
Lemma run_call_ttl (fl : Q -> Q) (call : Call) (w : World) :
  CACHE_TTL (cache (run_call fl call w)) = CACHE_TTL (cache w)
  /\ clock (run_call fl call w) = clock w.
Proof.
  destruct call as [t r|t r|arrivals| |t r|t| |]; simpl.
  - destruct (serves_from_cache t w) eqn:Hs.
    + rewrite (ensure_hit t r w Hs). auto.
    + rewrite (run_ensure_miss t r w Hs).
      destruct (run_refresh_ttl t r
        (with_cache (incr_misses t (cache w)) (snd (_isCacheValid t w))))
        as [H1 H2].
      rewrite H1, H2. simpl.
      destruct (_isCacheValid_cache t w) as (_ & _ & Hk). auto.
  - apply run_refresh_ttl.
  - destruct (run_refreshAll_effect arrivals w)
      as (_ & _ & _ & Httl & _ & Hk & _). auto.
  - auto.
  - auto.
  - destruct (getCacheAge_cache t w) as (Hc & _ & Hk). now rewrite Hc.
  - rewrite getStats_eq. simpl.
    destruct (after_getStats_cache w) as (Hc & _ & Hk). now rewrite Hc.
  - auto.
Qed.

Lemma run_calls_ttl (fl : Q -> Q) (calls : list Call) :
  forall w,
  CACHE_TTL (cache (run_calls fl calls w)) = CACHE_TTL (cache w)
  /\ clock (run_calls fl calls w) = clock w.
Proof.
  induction calls as [|call rest IH]; intro w; simpl.
  - auto.
  - destruct (IH (run_call fl call w)) as [H1 H2].
    destruct (run_call_ttl fl call w) as [H3 H4].
    rewrite H1, H2. auto.
Qed.

(** ** The shape of the maps *)

Lemma map_set_keyed (m : JsMap) (r : CachedRecord) :
  keyed_by_id m -> keyed_by_id (map_set m (id r) r).
Proof.
  intros [Hnd Hall]. split; [apply map_set_NoDup, Hnd|].
  clear Hnd. induction m as [|[k v] m IH]; simpl.
  - repeat constructor.
  - inversion Hall as [|? ? Hkv Hrest]; subst.
    destruct (Id_eqb k (id r)) eqn:E.
    + apply Id_eqb_eq in E. constructor; [simpl; exact E | exact Hrest].
    + constructor; [exact Hkv | apply IH, Hrest].
Qed.

Lemma set_each_keyed (records : list CachedRecord) (m : JsMap) :
  keyed_by_id m -> keyed_by_id (set_each m records).
Proof.
  revert m. induction records as [|r rest IH]; intros m H; simpl.
  - exact H.
  - apply IH, map_set_keyed, H.
Qed.

Lemma empty_keyed : keyed_by_id [].
Proof. split; constructor. Qed.

(** After one call the entries of a category are what they were, or these
    with one record set, or what a response of upstream gives. *)
Lemma run_call_entries (fl : Q -> Q) (call : Call) (type : Category)
  (w : World) :
  let w' := run_call fl call w in
  entries type w' = entries type w
  \/ (exists r, entries type w' = map_set (entries type w) (id r) r)
  \/ (exists records, entries type w' = set_each [] records).
Proof.
  destruct call as [t r|t r|arrivals| |t r|t| |]; simpl.
  - destruct (serves_from_cache t w) eqn:Hs.
    + rewrite (ensure_hit t r w Hs). now left.
    + rewrite (run_ensure_miss t r w Hs).
      pose proof (run_refresh_category t r
        (with_cache (incr_misses t (cache w)) (snd (_isCacheValid t w)))
        type) as Hr.
      simpl in Hr. destruct r as [records|error].
      * destruct (Category_eqb t type).
        -- right. right. exists records. apply Hr.
        -- left. apply Hr.
      * left. apply Hr.
  - pose proof (run_refresh_category t r w type) as Hr. simpl in Hr.
    destruct r as [records|error].
    + destruct (Category_eqb t type).
      * right. right. exists records. apply Hr.
      * left. apply Hr.
    + left. apply Hr.
  - destruct (run_refreshAll_effect arrivals w) as (_ & _ & _ & _ & _ & _ & H).
    specialize (H type).
    destruct (first_arrival type arrivals) as [[records|error]|].
    + right. right. exists records. apply H.
    + left. apply H.
    + left. apply H.
  - right. right. exists []. destruct type; reflexivity.
  - pose proof (run_call_category fl (CallAdd t r) type w) as H.
    simpl in H. destruct H as [_ H].
    destruct (Category_eqb t type).
    + right. left. exists r. exact H.
    + left. exact H.
  - left. unfold entries.
    destruct (getCacheAge_cache t w) as (Hc & _). now rewrite Hc.
  - left. rewrite getStats_eq. simpl. unfold entries.
    destruct (after_getStats_cache w) as (Hc & _). now rewrite Hc.
  - now left.
Qed.

(** ** Refreshes and upstream calls *)

Lemma calls_to_app (type : Category) (l1 l2 : list Category) :
  calls_to type (l1 ++ l2) = (calls_to type l1 + calls_to type l2)%nat.
Proof. unfold calls_to. now rewrite filter_app, length_app. Qed.

Lemma calls_to_one (type t : Category) :
  calls_to type [t] = if Category_eqb t type then 1%nat else 0%nat.
Proof. destruct type, t; reflexivity. Qed.

(** A refresh run to its end: one upstream call, one refresh counted. *)
Lemma run_refresh_refreshes (t : Category) (response : Response)
  (w : World) (type : Category) :
  let w' := snd (run (refresh t) [response] w) in
  upstreamCalls w' = upstreamCalls w ++ [t]
  /\ get type (refreshes (stats (cache w'))) =
     (get type (refreshes (stats (cache w))) + calls_to type [t])%nat
  /\ misses (stats (cache w')) = misses (stats (cache w)).
Proof.
  rewrite calls_to_one.
  destruct response.
  - rewrite run_refresh_resolves. simpl. rewrite get_set.
    destruct (Category_eqb t type) eqn:E; repeat split; try lia.
    apply Category_eqb_eq in E. subst. lia.
  - rewrite run_refresh_rejects. simpl. rewrite get_set.
    destruct (Category_eqb t type) eqn:E; repeat split; try lia.
    apply Category_eqb_eq in E. subst. lia.
Qed.

(** What a call other than [resetStats] adds to the log of upstream calls
    it adds to the refresh counters; a miss comes with a refresh. *)
Lemma run_call_upstream (fl : Q -> Q) (call : Call) (w : World) :
  is_reset call = false ->
  let w' := run_call fl call w in
  exists l,
    upstreamCalls w' = upstreamCalls w ++ l
    /\ forall type,
         get type (refreshes (stats (cache w'))) =
           (get type (refreshes (stats (cache w))) + calls_to type l)%nat
         /\ (get type (misses (stats (cache w)))
             <= get type (misses (stats (cache w'))))%nat
         /\ (get type (misses (stats (cache w')))
             <= get type (misses (stats (cache w))) + calls_to type l)%nat.
Proof.
  intros Hreset w'. subst w'.
  destruct call as [t r|t r|arrivals| |t r|t| |]; simpl in *;
    try discriminate.
  - destruct (serves_from_cache t w) eqn:Hs.
    + exists []. rewrite (ensure_hit t r w Hs). simpl.
      rewrite app_nil_r. split; [reflexivity|]. intro type.
      unfold calls_to. simpl. lia.
    + exists [t]. rewrite (run_ensure_miss t r w Hs).
      set (wm := with_cache (incr_misses t (cache w))
                   (snd (_isCacheValid t w))).
      assert (Hwm : upstreamCalls wm = upstreamCalls w
                    /\ refreshes (stats (cache wm)) = refreshes (stats (cache w))
                    /\ forall type, get type (misses (stats (cache wm))) =
                         if Category_eqb t type
                         then S (get type (misses (stats (cache w))))
                         else get type (misses (stats (cache w)))).
      { destruct (_isCacheValid_cache t w) as (_ & Hu & _).
        subst wm. simpl. repeat split; try assumption.
        intro type. rewrite get_set.
        destruct (Category_eqb t type) eqn:E; [|reflexivity].
        apply Category_eqb_eq in E. now subst. }
      clearbody wm. destruct Hwm as (Hu & Hr & Hm).
      split.
      * destruct (run_refresh_refreshes t r wm t) as (H1 & _).
        rewrite H1, Hu. reflexivity.
      * intro type.
        destruct (run_refresh_refreshes t r wm type) as (_ & H2 & H3).
        rewrite H2, H3, Hr, (Hm type), calls_to_one.
        destruct (Category_eqb t type); lia.
  - exists [t]. split.
    + destruct (run_refresh_refreshes t r w t) as (H1 & _). exact H1.
    + intro type.
      destruct (run_refresh_refreshes t r w type) as (_ & H2 & H3).
      rewrite H2, H3. lia.
  - exists [Tags; Correspondents; DocumentTypes].
    destruct (run_refreshAll_effect arrivals w)
      as (_ & Hm & Hr & _ & Hu & _).
    split; [exact Hu|]. intro type. rewrite (Hr type), Hm.
    destruct type; unfold calls_to; simpl; lia.
  - exists []. rewrite app_nil_r. split; [reflexivity|].
    intro type. unfold calls_to. simpl. lia.
  - exists []. rewrite app_nil_r. split; [reflexivity|].
    intro type. unfold calls_to. simpl. lia.
  - exists []. destruct (getCacheAge_cache t w) as (Hc & Hu & _).
    rewrite Hc, Hu, app_nil_r. split; [reflexivity|].
    intro type. unfold calls_to. simpl. lia.
  - exists []. rewrite getStats_eq. simpl.
    destruct (after_getStats_cache w) as (Hc & Hu & _).
    rewrite Hc, Hu, app_nil_r. split; [reflexivity|].
    intro type. unfold calls_to. simpl. lia.
Qed.

(** ** The outcome of [refreshAll] *)

(** Once [Promise.all] has settled, later responses do not change how. *)
Lemma deliver_outcome_sticky (type : Category) (response : Response)
  (call : RefreshAll) (w : World) (o : Promise bool) :
  outcome call = Some o ->
  outcome (fst (refreshAll_deliver type response call w)) = Some o.
Proof.
  intro H. unfold refreshAll_deliver.
  destruct (get type (children call)); try exact H.
  unfold bind. destruct (k response w) as [p w1]. rewrite H. reflexivity.
Qed.

Lemma settle_outcome_sticky (arrivals : list (Category * Response)) :
  forall (call : RefreshAll) (w : World) (o : Promise bool),
  outcome call = Some o ->
  outcome (fst (refreshAll_settle arrivals call w)) = Some o.
Proof.
  induction arrivals as [|[t r] rest IH]; intros call w o H; simpl.
  - exact H.
  - unfold bind.
    pose proof (deliver_outcome_sticky t r call w o H) as H1.
    destruct (refreshAll_deliver t r call w) as [call1 w1].
    apply IH. exact H1.
Qed.

(** Records arriving for a refresh that waits, [Promise.all] pending. *)
Lemma deliver_resolves_eq (type : Category) (records : list CachedRecord)
  (call : RefreshAll) (w : World) :
  get type (children call) = AwaitUpstream type (refresh_resume type) ->
  outcome call = None ->
  let children' :=
    set type (Fulfilled (map_values (set_each [] records))) (children call) in
  fst (refreshAll_deliver type (Resolves records) call w) =
  mkRefreshAll (startTime call) children'
    (if all_fulfilled children' then Some (Fulfilled true) else None).
Proof.
  intros Hchild Hnone children'. subst children'.
  unfold refreshAll_deliver, all_fulfilled. rewrite Hchild. unfold bind.
  rewrite refresh_resume_resolves, Hnone. simpl.
  destruct (is_fulfilled _ && is_fulfilled _ && is_fulfilled _); reflexivity.
Qed.

(** A response for a refresh that has settled is dropped. *)
Lemma deliver_settled_eq (type : Category) (response : Response)
  (call : RefreshAll) (w : World) :
  awaits_upstream (get type (children call)) = false ->
  refreshAll_deliver type response call w = (call, w).
Proof.
  intro H. unfold refreshAll_deliver.
  destruct (get type (children call)); try reflexivity. discriminate.
Qed.

(** When the response that reaches each pending refresh carries records,
    [Promise.all] resolves and [refreshAll] returns [true]. *)
Lemma settle_all_resolve (arrivals : list (Category * Response)) :
  forall (call : RefreshAll) (w : World),
  outcome call = None ->
  all_fulfilled (children call) = false ->
  (forall t,
     (get t (children call) = AwaitUpstream t (refresh_resume t)
      /\ exists records, first_arrival t arrivals = Some (Resolves records))
     \/ is_fulfilled (get t (children call)) = true) ->
  outcome (fst (refreshAll_settle arrivals call w)) = Some (Fulfilled true).
Proof.
  induction arrivals as [|[t r] rest IH]; intros call w Hnone Hnot Hall.
  - exfalso. unfold all_fulfilled in Hnot.
    assert (H : forall t, is_fulfilled (get t (children call)) = true).
    { intro t. destruct (Hall t) as [[_ [records Hf]]|H]; [discriminate|exact H]. }
    pose proof (H Tags) as HT. pose proof (H Correspondents) as HC.
    pose proof (H DocumentTypes) as HD. simpl in HT, HC, HD.
    rewrite HT, HC, HD in Hnot. discriminate.
  - simpl. unfold bind.
    destruct (Hall t) as [[Hchild [records Hf]]|Hful].
    + simpl in Hf. rewrite Category_eqb_refl in Hf. injection Hf as ->.
      pose proof (deliver_resolves_eq t records call w Hchild Hnone) as E.
      destruct (refreshAll_deliver t (Resolves records) call w)
        as [call1 w1].
      simpl in E. subst call1.
      destruct (all_fulfilled
                  (set t (Fulfilled (map_values (set_each [] records)))
                     (children call))) eqn:Hdone.
      * apply settle_outcome_sticky. reflexivity.
      * apply IH; [reflexivity | exact Hdone |].
        intro t'. simpl. rewrite get_set.
        destruct (Category_eqb t t') eqn:Et; [now right|].
        destruct (Hall t') as [[Hc' [recs' Hf']]|Hful']; [left|now right].
        split; [exact Hc'|]. exists recs'. simpl in Hf'.
        rewrite Et in Hf'. exact Hf'.
    + assert (Hw : awaits_upstream (get t (children call)) = false)
        by (destruct (get t (children call)); try discriminate; reflexivity).
      rewrite (deliver_settled_eq t r call w Hw).
      apply IH; [exact Hnone | exact Hnot |].
      intro t'. destruct (Hall t') as [[Hc' [recs' Hf']]|Hful']; [left|now right].
      split; [exact Hc'|]. exists recs'. simpl in Hf'.
      destruct (Category_eqb t t') eqn:Et; [|exact Hf'].
      apply Category_eqb_eq in Et. subst t'. rewrite Hc' in Hful. discriminate.
Qed.

(** ** The stages of a call *)

Lemma stage_of_app (l1 l2 : list Event) (i : nat) (s : Stage) :
  stage_of (l1 ++ l2) i s = stage_of l2 i (stage_of l1 i s).
Proof.
  revert s. induction l1 as [|e l1 IH]; intro s; simpl; [reflexivity|].
  apply IH.
Qed.

Lemma stage_of_returned (events : list Event) (i : nat) :
  stage_of events i Returned = Returned.
Proof.
  induction events as [|e rest IH]; simpl; [reflexivity|].
  destruct (Nat.eqb (target e) i), e; simpl; exact IH.
Qed.

(** A call that has its response does not wait again. *)
Lemma stage_of_queued (events : list Event) (i : nat) :
  stage_of events i Queued <> Waiting.
Proof.
  induction events as [|e rest IH]; simpl; [discriminate|].
  destruct (Nat.eqb (target e) i), e; simpl; try exact IH.
  rewrite stage_of_returned. discriminate.
Qed.

(** One statistics object of [getStats], read with a clock that does not
    run backwards. *)
Lemma categoryStats_valid (type : Category) (v : World) :
  (forall i j, (i <= j)%nat -> clock v i <= clock v j) ->
  CategoryStats.valid (fst (categoryStats type v)) = true ->
  exists t ttl,
    lastRefreshAt type v = Some t
    /\ CACHE_TTL (cache v) = Some ttl
    /\ CategoryStats.age (fst (categoryStats type v)) =
       age_text (clock v (ticks v) - t)
    /\ clock v (ticks v) - t < ttl.
Proof.
  intros Hmono. rewrite categoryStats_eq. simpl.
  rewrite getCacheAge_eq, _isCacheValid_eq.
  destruct (lastRefreshAt type v) as [t|] eqn:Ht; simpl.
  - destruct (t =? 0) eqn:E0; simpl.
    + rewrite Ht, E0. discriminate.
    + unfold lastRefreshAt in *. simpl. rewrite Ht, E0. simpl.
      destruct (CACHE_TTL (cache v)) as [ttl|]; simpl; [|discriminate].
      intro Hlt. apply Z.ltb_lt in Hlt.
      exists t, ttl. repeat split.
      specialize (Hmono (ticks v) (S (ticks v)) (Nat.le_succ_diag_r _)). lia.
  - rewrite Ht. discriminate.
Qed.

(** ** Timestamps are clock readings *)

Lemma stamped_refl (w : World) : stamped_since w w.
Proof. repeat split; auto. Qed.

Lemma stamped_trans (w1 w2 w3 : World) :
  stamped_since w1 w2 -> stamped_since w2 w3 -> stamped_since w1 w3.
Proof.
  intros (K1 & T1 & S1) (K2 & T2 & S2).
  split; [congruence|]. split; [lia|].
  intro type.
  destruct (S2 type) as [E|[E|(k & Hk & E)]].
  - rewrite E. destruct (S1 type) as [F|[F|(k & Hk & F)]]; auto.
    right. right. exists k. split; [lia | exact F].
  - auto.
  - right. right. exists k. split; [lia|]. rewrite E, K1. reflexivity.
Qed.

(** A step that keeps the timestamps. *)
Lemma stamped_keep (w w' : World) :
  clock w' = clock w -> (ticks w <= ticks w')%nat ->
  lastUpdate (cache w') = lastUpdate (cache w) ->
  stamped_since w w'.
Proof.
  intros K T L. split; [exact K|]. split; [exact T|].
  intro type. left. unfold lastRefreshAt. now rewrite L.
Qed.

Lemma stamped_isCacheValid (type : Category) (w : World) :
  stamped_since w (snd (_isCacheValid type w)).
Proof.
  destruct (_isCacheValid_cache type w) as (Hc & _ & Hk).
  apply stamped_keep; [exact Hk | apply _isCacheValid_ticks | now rewrite Hc].
Qed.

Lemma stamped_getCacheAge (type : Category) (w : World) :
  stamped_since w (snd (getCacheAge type w)).
Proof. rewrite getCacheAge_world. apply stamped_isCacheValid. Qed.

Lemma stamped_refresh_resume (type : Category) (response : Response)
  (w : World) :
  stamped_since w (snd (refresh_resume type response w)).
Proof.
  destruct response as [records|error].
  - rewrite refresh_resume_resolves.
    split; [reflexivity|]. split; [simpl; lia|].
    intro t. unfold lastRefreshAt. simpl. rewrite get_set.
    destruct (Category_eqb type t); [|now left].
    right. right. exists (ticks w). split; [lia | reflexivity].
  - apply stamped_refl.
Qed.

Lemma stamped_tick (w : World) : stamped_since w (tick w).
Proof. apply stamped_keep; simpl; auto. Qed.

Lemma stamped_deliver (type : Category) (response : Response)
  (call : RefreshAll) (w : World) :
  children_ok call ->
  stamped_since w (snd (refreshAll_deliver type response call w)).
Proof.
  intro Hok. unfold refreshAll_deliver.
  destruct (Hok type) as [Hchild|Hchild].
  - rewrite Hchild. unfold bind.
    pose proof (stamped_refresh_resume type response w) as Hs.
    destruct (refresh_resume type response w) as [p w1]. simpl in Hs.
    destruct (outcome call) as [o|]; simpl; [exact Hs|].
    destruct p as [a|e|? ?|?]; simpl; try exact Hs;
      try match goal with
          | |- context [if is_fulfilled (tags ?c) && ?x && ?y
                        then _ else _] =>
              destruct (is_fulfilled (tags c) && x && y)
          end;
      simpl; try exact Hs;
      apply (stamped_trans w w1 (tick w1) Hs (stamped_tick w1)).
  - destruct (get type (children call)); try apply stamped_refl.
    discriminate.
Qed.

Lemma stamped_settle (arrivals : list (Category * Response)) :
  forall (call : RefreshAll) (w : World),
  children_ok call ->
  stamped_since w (snd (refreshAll_settle arrivals call w)).
Proof.
  induction arrivals as [|[type response] rest IH]; intros call w Hok.
  - apply stamped_refl.
  - simpl. unfold bind.
    pose proof (stamped_deliver type response call w Hok) as Hd.
    destruct (refreshAll_deliver_effect type response call w Hok)
      as (Hok1 & _).
    destruct (refreshAll_deliver type response call w) as [call1 w1].
    simpl in *.
    apply (stamped_trans w w1 _ Hd). apply IH, Hok1.
Qed.

Lemma stamped_run_refresh (type : Category) (response : Response)
  (w : World) :
  stamped_since w (snd (run (refresh type) [response] w)).
Proof.
  destruct response as [records|error].
  - rewrite run_refresh_resolves.
    split; [reflexivity|]. split; [simpl; lia|].
    intro t. unfold lastRefreshAt. simpl. rewrite get_set.
    destruct (Category_eqb type t); [|now left].
    right. right. exists (ticks w). split; [lia | reflexivity].
  - rewrite run_refresh_rejects. apply stamped_keep; simpl; auto.
Qed.

Lemma stamped_categoryStats (type : Category) (w : World) :
  stamped_since w (snd (categoryStats type w)).
Proof.
  rewrite categoryStats_eq. simpl.
  apply (stamped_trans w (snd (getCacheAge type w)) _).
  - apply stamped_getCacheAge.
  - apply stamped_isCacheValid.
Qed.

(** Every call takes its timestamps from the clock. *)
Lemma stamped_run_call (fl : Q -> Q) (call : Call) (w : World) :
  stamped_since w (run_call fl call w).
Proof.
  destruct call as [t r|t r|arrivals| |t r|t| |]; simpl.
  - destruct (serves_from_cache t w) eqn:Hs.
    + rewrite (ensure_hit t r w Hs). simpl.
      apply stamped_keep; simpl; auto.
    + rewrite (run_ensure_miss t r w Hs).
      set (wm := with_cache (incr_misses t (cache w))
                   (snd (_isCacheValid t w))).
      apply (stamped_trans w wm _); [|apply stamped_run_refresh].
      destruct (stamped_isCacheValid t w) as (K & T & _).
      destruct (_isCacheValid_cache t w) as (Hc & _).
      apply stamped_keep; subst wm; simpl; auto.
  - apply stamped_run_refresh.
  - unfold run_refreshAll, bind. rewrite refreshAll_start.
    set (call0 := mkRefreshAll _ _ _). set (w0 := mkWorld _ _ _ _).
    apply (stamped_trans w w0 _).
    + apply stamped_keep; subst w0; simpl; auto.
    + apply stamped_settle. intros []; left; reflexivity.
  - split; [reflexivity|]. split; [simpl; lia|].
    intro type. right. left. destruct type; reflexivity.
  - apply stamped_keep; simpl; auto.
  - apply stamped_getCacheAge.
  - rewrite getStats_eq. simpl. unfold after_getStats.
    eapply stamped_trans; [apply stamped_categoryStats|].
    eapply stamped_trans; apply stamped_categoryStats.
  - apply stamped_keep; simpl; auto.
Qed.

Lemma stamps_step (w w' : World) :
  stamps_are_readings w -> stamped_since w w' -> stamps_are_readings w'.
Proof.
  intros Hinv (K & T & S) type t Ht.
  destruct (S type) as [E|[E|(k & Hk & E)]].
  - rewrite E in Ht. destruct (Hinv type t Ht) as (k & Hk & ->).
    exists k. split; [lia | now rewrite K].
  - congruence.
  - rewrite E in Ht. injection Ht as <-.
    exists k. split; [lia | now rewrite K].
Qed.

(** After any calls on a new cache every timestamp is a reading that the
    clock has given. *)
Lemma run_calls_stamps (fl : Q -> Q) (calls : list Call) :
  forall w, stamps_are_readings w ->
            stamps_are_readings (run_calls fl calls w).
Proof.
  induction calls as [|call rest IH]; intros w Hw; simpl; [exact Hw|].
  apply IH. apply (stamps_step w _ Hw). apply stamped_run_call.
Qed.

Lemma new_World_stamps (env : option string) (clock0 : nat -> Z) :
  stamps_are_readings (new_World env clock0).
Proof. intros type t Ht. destruct type; discriminate Ht. Qed.

(** ** The test at the head of [ensure], in terms of the fields *)

Lemma serves_from_cache_eq (type : Category) (w : World) :
  serves_from_cache type w =
  match lastRefreshAt type w, CACHE_TTL (cache w) with
  | Some t, Some ttl => negb (t =? 0) && (clock w (ticks w) - t <? ttl)
  | _, _ => false
  end && (0 <? map_size (entries type w)).
Proof.
  unfold serves_from_cache. rewrite _isCacheValid_eq.
  destruct (lastRefreshAt type w) as [t|]; [|reflexivity].
  destruct (t =? 0); simpl;
    destruct (CACHE_TTL (cache w)); reflexivity.
Qed.

(** ** Sequences of calls in two parts *)

Lemma run_calls_app (fl : Q -> Q) (l1 l2 : list Call) (w : World) :
  run_calls fl (l1 ++ l2) w = run_calls fl l2 (run_calls fl l1 w).
Proof.
  revert w. induction l1 as [|c l1 IH]; intro w; simpl; [reflexivity|].
  apply IH.
Qed.

Lemma split_at_last_reset (calls : list Call) :
  calls = until_last_reset calls ++ since_last_reset calls
  /\ forallb (fun call => negb (is_reset call)) (since_last_reset calls)
     = true
  /\ (until_last_reset calls = []
      \/ exists earlier,
           until_last_reset calls = earlier ++ [CallResetStats]).
Proof.
  induction calls as [|call rest IH]; simpl.
  - auto.
  - destruct IH as (Happ & Hno & Hlast).
    destruct (existsb is_reset rest) eqn:Hex.
    + split; [simpl; now f_equal|]. split; [exact Hno|].
      right. destruct Hlast as [Hnil|[earlier He]].
      * exfalso. rewrite Hnil in Happ. simpl in Happ.
        rewrite Happ in Hex.
        assert (H : existsb is_reset (since_last_reset rest) = false).
        { clear - Hno. induction (since_last_reset rest) as [|c l IHl];
            simpl in *; [reflexivity|].
          apply andb_prop in Hno as [Hc Hl].
          apply negb_true_iff in Hc. rewrite Hc. simpl. auto. }
        congruence.
      * exists (call :: earlier). rewrite He. reflexivity.
    + assert (Hrest : forallb (fun c => negb (is_reset c)) rest = true).
      { clear - Hex. induction rest as [|c l IHl]; simpl in *;
          [reflexivity|].
        apply orb_false_elim in Hex as [Hc Hl]. rewrite Hc. simpl. auto. }
      destruct (is_reset call) eqn:Hc.
      * destruct call; try discriminate.
        split; [reflexivity|]. split; [exact Hrest|].
        right. exists []. reflexivity.
      * split; [reflexivity|]. split; [simpl; now rewrite Hc|]. now left.
Qed.

(** ** One [ensure] with a time-to-live of zero *)

Lemma zero_ttl_not_served (type : Category) (w : World) :
  CACHE_TTL (cache w) = Some 0 ->
  (forall t, lastRefreshAt type w = Some t -> t <= clock w (ticks w)) ->
  serves_from_cache type w = false.
Proof.
  intros Httl Hpast. rewrite serves_from_cache_eq, Httl.
  destruct (lastRefreshAt type w) as [t|]; [|reflexivity].
  specialize (Hpast t eq_refl).
  replace (clock w (ticks w) - t <? 0) with false
    by (symmetry; apply Z.ltb_ge; lia).
  now rewrite andb_false_r.
Qed.

Lemma _isCacheValid_ticks_upper (type : Category) (w : World) :
  (ticks (snd (_isCacheValid type w)) <= S (ticks w))%nat.
Proof.
  rewrite _isCacheValid_eq.
  destruct (lastRefreshAt type w) as [t|]; [|auto].
  destruct (t =? 0); simpl; auto.
Qed.

(** With a time-to-live of zero, a clock that does not run backwards and
    no timestamp in the future, an [ensure] calls upstream and leaves a
    world of the same kind. *)
Lemma zero_ttl_ensure_step (type : Category) (response : Response)
  (w : World) :
  CACHE_TTL (cache w) = Some 0 ->
  monotone (clock w) ->
  (forall t, lastRefreshAt type w = Some t -> t <= clock w (ticks w)) ->
  let w1 := snd (run (ensure type) [response] w) in
  upstreamCalls w1 = upstreamCalls w ++ [type]
  /\ CACHE_TTL (cache w1) = Some 0
  /\ clock w1 = clock w
  /\ (forall t, lastRefreshAt type w1 = Some t -> t <= clock w1 (ticks w1))
  /\ get type (refreshes (stats (cache w1))) =
     S (get type (refreshes (stats (cache w))))
  /\ hits (stats (cache w1)) = hits (stats (cache w)).
Proof.
  intros Httl Hmono Hpast w1.
  pose proof (zero_ttl_not_served type w Httl Hpast) as Hs.
  destruct (ensure_miss type response w Hs) as [Hrun Hcalls].
  fold w1 in Hcalls.
  set (wm := with_cache (incr_misses type (cache w))
               (snd (_isCacheValid type w))) in Hrun.
  destruct (_isCacheValid_cache type w) as (_ & _ & Hk).
  pose proof (_isCacheValid_ticks type w) as Hticks.
  assert (E : w1 = snd (run (refresh type) [response] wm))
    by (subst w1; now rewrite Hrun).
  split; [exact Hcalls|].
  rewrite E. destruct response as [records|error].
  - rewrite run_refresh_resolves. unfold lastRefreshAt. subst wm. simpl.
    rewrite !get_set_same, Hk.
    repeat split; auto.
    intros t Ht. injection Ht as <-. apply Hmono. lia.
  - rewrite run_refresh_rejects. unfold lastRefreshAt in *. subst wm. simpl.
    rewrite get_set_same, Hk.
    repeat split; auto.
    intros t Ht. specialize (Hpast t Ht).
    specialize (Hmono _ _ Hticks). lia.
Qed.

(* ================================================================== *)
(** * The claims *)

(** ** C1 *)

(** C1.  A call of [ensure] is a hit when the category is valid and its
    map is not empty.  Valid means: the category has a timestamp, which
    the code takes for missing when it is [0], the time-to-live is a
    number, and the age at the clock reading taken is below it.  A hit
    adds one to the hit counter of the category and changes nothing else
    in the cache: not the other hit counters, no miss or refresh counter,
    no map, no timestamp; upstream is not called, and the call returns the
    values of the map, in insertion order.  In every other state the call
    is a miss: it adds one to the miss counter of the category alone, and
    does what [refresh] does, that is, adds one to the refresh counter of
    the category, calls the upstream method of the category once and, when
    upstream answers with records, replaces the entries of the category by
    them, sets its timestamp to a clock reading and returns the new
    values; when upstream fails, the call throws the error and entries and
    timestamp stay.  The other categories keep entries and timestamps. *)
Theorem ensure_hit_or_miss (type : Category) (response : Response)
  (w : World) :
  let now := clock w (ticks w) in
  let valid :=
    match lastRefreshAt type w, CACHE_TTL (cache w) with
    | Some t, Some ttl => negb (t =? 0) && (now - t <? ttl)
    | _, _ => false
    end in
  let result := fst (run (ensure type) [response] w) in
  let w' := snd (run (ensure type) [response] w) in
  let one_more (before after : PerCategory nat) :=
    forall t, get t after =
              if Category_eqb type t then S (get t before)
              else get t before in
  CACHE_TTL (cache w') = CACHE_TTL (cache w)
  /\ if valid && (0 <? map_size (entries type w)) then
       result = Fulfilled (map_values (entries type w))
       /\ upstreamCalls w' = upstreamCalls w
       /\ one_more (hits (stats (cache w))) (hits (stats (cache w')))
       /\ misses (stats (cache w')) = misses (stats (cache w))
       /\ refreshes (stats (cache w')) = refreshes (stats (cache w))
       /\ maps (cache w') = maps (cache w)
       /\ lastUpdate (cache w') = lastUpdate (cache w)
     else
       upstreamCalls w' = upstreamCalls w ++ [type]
       /\ one_more (misses (stats (cache w))) (misses (stats (cache w')))
       /\ hits (stats (cache w')) = hits (stats (cache w))
       /\ one_more (refreshes (stats (cache w)))
                   (refreshes (stats (cache w')))
       /\ (forall t, t <> type ->
             entries t w' = entries t w
             /\ lastRefreshAt t w' = lastRefreshAt t w)
       /\ match response with
          | Resolves records =>
              result = Fulfilled (map_values (entries type w'))
              /\ entries type w' = set_each [] records
              /\ (forall k, map_get (entries type w') k =
                            last_with_id records k)
              /\ exists k, (ticks w <= k <= S (ticks w))%nat
                           /\ lastRefreshAt type w' = Some (clock w k)
          | Rejects error =>
              result = Rejected error
              /\ entries type w' = entries type w
              /\ lastRefreshAt type w' = lastRefreshAt type w
          end.
Proof.
  intros now valid result w' one_more.
  assert (Hcond : valid && (0 <? map_size (entries type w)) =
                  serves_from_cache type w)
    by (symmetry; apply serves_from_cache_eq).
  rewrite Hcond. subst result w'.
  assert (Hone : forall (p : PerCategory nat) t,
             get t (set type (S (get type p)) p) =
             if Category_eqb type t then S (get t p) else get t p).
  { intros p t. rewrite get_set.
    destruct (Category_eqb type t) eqn:E; [|reflexivity].
    apply Category_eqb_eq in E. subst t. reflexivity. }
  destruct (serves_from_cache type w) eqn:Hs.
  - rewrite (ensure_hit type response w Hs). simpl.
    repeat split. intro t. apply Hone.
  - destruct (ensure_miss type response w Hs) as [Hrun Hcalls].
    rewrite Hcalls, Hrun.
    destruct (_isCacheValid_cache type w) as (_ & _ & Hk).
    pose proof (_isCacheValid_ticks type w) as Hlo.
    pose proof (_isCacheValid_ticks_upper type w) as Hhi.
    assert (Hother : forall t, t <> type -> Category_eqb type t = false).
    { intros t Ht. destruct (Category_eqb type t) eqn:E; [|reflexivity].
      apply Category_eqb_eq in E. congruence. }
    destruct response as [records|error].
    + rewrite run_refresh_resolves. unfold entries, lastRefreshAt. simpl.
      rewrite !get_set_same, Hk.
      repeat split; try (intro t; apply Hone).
      * rewrite get_set, Hother by assumption. reflexivity.
      * rewrite get_set, Hother by assumption. reflexivity.
      * intro k. rewrite map_get_set_each. simpl.
        destruct (last_with_id records k); reflexivity.
      * exists (ticks (snd (_isCacheValid type w))). split; [lia|reflexivity].
    + rewrite run_refresh_rejects. unfold entries, lastRefreshAt. simpl.
      repeat split; try (intro t; apply Hone).
Qed.

(** ** C2 *)

(** C2.  In every state that calls made one after the other on a new
    cache reach, under a wall clock that never reads [0] and with a
    numeric time-to-live [ttl], the validity test is a decision on the
    timestamp, the time-to-live and the clock reading [now] alone: it is
    false when the category has no timestamp, and otherwise true exactly
    when [now - lastRefreshAt < ttl]; the test changes neither the cache
    nor the log of upstream calls.  In particular with [ttl = 0] the test
    is false whenever [now >= lastRefreshAt], and when the clock does not
    run backwards two [ensure] calls in a row each call upstream and each
    count a refresh, whatever upstream answers.  (The code takes a
    timestamp [0] for a missing one; timestamps are clock readings, so
    under such a clock none is [0].) *)
Theorem validity_is_age_below_ttl (fl : Q -> Q) (env : option string)
  (clock0 : nat -> Z) (calls : list Call) (type : Category) (ttl : Z) :
  never_reads_zero clock0 ->
  let w := run_calls fl calls (new_World env clock0) in
  let now := clock0 (ticks w) in
  CACHE_TTL (cache w) = Some ttl ->
  fst (_isCacheValid type w) =
    match lastRefreshAt type w with
    | None => false
    | Some t => now - t <? ttl
    end
  /\ cache (snd (_isCacheValid type w)) = cache w
  /\ upstreamCalls (snd (_isCacheValid type w)) = upstreamCalls w
  /\ (ttl = 0 ->
      (forall t, lastRefreshAt type w = Some t -> now >= t) ->
      fst (_isCacheValid type w) = false)
  /\ (ttl = 0 ->
      monotone clock0 ->
      forall response1 response2 : Response,
        let w1 := snd (run (ensure type) [response1] w) in
        let w2 := snd (run (ensure type) [response2] w1) in
        upstreamCalls w1 = upstreamCalls w ++ [type]
        /\ upstreamCalls w2 = upstreamCalls w ++ [type; type]
        /\ get type (refreshes (stats (cache w1))) =
           S (get type (refreshes (stats (cache w))))
        /\ get type (refreshes (stats (cache w2))) =
           S (S (get type (refreshes (stats (cache w)))))
        /\ hits (stats (cache w2)) = hits (stats (cache w))).
Proof.
  intros Hclock w now Httl.
  assert (Hk : clock w = clock0).
  { subst w. destruct (run_calls_ttl fl calls (new_World env clock0))
      as [_ E]. rewrite E. reflexivity. }
  assert (Hstamps : stamps_are_readings w).
  { subst w. apply run_calls_stamps. apply new_World_stamps. }
  assert (Hvalid : fst (_isCacheValid type w) =
                   match lastRefreshAt type w with
                   | None => false
                   | Some t => now - t <? ttl
                   end).
  { rewrite _isCacheValid_eq.
    destruct (lastRefreshAt type w) as [t|] eqn:Ht; [|reflexivity].
    destruct (Hstamps type t Ht) as (k & _ & E).
    assert (H0 : (t =? 0) = false).
    { apply Z.eqb_neq. rewrite E, Hk. apply Hclock. }
    rewrite H0, Httl. subst now. rewrite Hk. reflexivity. }
  split; [exact Hvalid|].
  destruct (_isCacheValid_cache type w) as (Hc & Hu & _).
  split; [exact Hc|]. split; [exact Hu|].
  split.
  - intros -> Hpast. rewrite Hvalid.
    destruct (lastRefreshAt type w) as [t|]; [|reflexivity].
    specialize (Hpast t eq_refl). apply Z.ltb_ge. lia.
  - intros -> Hmono response1 response2 w1 w2.
    assert (Hmono' : monotone (clock w)) by (rewrite Hk; exact Hmono).
    assert (Hpast : forall t, lastRefreshAt type w = Some t ->
                              t <= clock w (ticks w)).
    { intros t Ht. destruct (Hstamps type t Ht) as (k & Hlt & ->).
      apply Hmono'. lia. }
    destruct (zero_ttl_ensure_step type response1 w Httl Hmono' Hpast)
      as (Hu1 & Httl1 & Hk1 & Hpast1 & Hr1 & Hh1).
    fold w1 in Hu1, Httl1, Hk1, Hpast1, Hr1, Hh1.
    assert (Hmono1 : monotone (clock w1)) by (rewrite Hk1; exact Hmono').
    destruct (zero_ttl_ensure_step type response2 w1 Httl1 Hmono1 Hpast1)
      as (Hu2 & _ & _ & _ & Hr2 & Hh2).
    fold w2 in Hu2, Hr2, Hh2.
    split; [exact Hu1|].
    split; [rewrite Hu2, Hu1, <- app_assoc; reflexivity|].
    split; [exact Hr1|].
    split; [rewrite Hr2, Hr1; reflexivity|].
    rewrite Hh2. exact Hh1.
Qed.

Lemma validity_is_age_below_ttl_witness :
  let fl := fun x : Q => x in
  let clock0 := fun n : nat => 1700000000000 + Z.of_nat n in
  let invoice := mkRecord (IdNum 1) "invoice" in
  let calls := [CallEnsure Tags (Resolves [invoice]); CallGetStats] in
  let w := run_calls fl calls (new_World (Some "0"%string) clock0) in
  let w1 := snd (run ensureTags [Resolves [invoice]] w) in
  let w2 := snd (run ensureTags [Rejects (mkError "timeout")] w1) in
  never_reads_zero clock0
  /\ monotone clock0
  /\ CACHE_TTL (cache w) = Some 0
  /\ lastRefreshAt Tags w = Some 1700000000000
  /\ fst (_isCacheValid Tags w) = false
  /\ upstreamCalls w2 = [Tags; Tags; Tags].
Proof.
  intros fl clock0 invoice calls w w1 w2.
  assert (H1 : never_reads_zero clock0)
    by (intro n; unfold clock0; lia).
  assert (H2 : monotone clock0)
    by (intros i j Hij; unfold clock0; lia).
  assert (H3 : CACHE_TTL (cache w) = Some 0) by reflexivity.
  assert (H4 : lastRefreshAt Tags w = Some 1700000000000) by reflexivity.
  split; [exact H1|]. split; [exact H2|]. split; [exact H3|].
  split; [exact H4|].
  destruct (validity_is_age_below_ttl fl (Some "0"%string) clock0 calls
              Tags 0 H1 H3) as (_ & _ & _ & Hzero & Htwice).
  split.
  - apply Hzero; [reflexivity|].
    intros t Ht. fold w in Ht. rewrite H4 in Ht. injection Ht as <-.
    unfold clock0. lia.
  - destruct (Htwice eq_refl H2 (Resolves [invoice])
                (Rejects (mkError "timeout"))) as (_ & E & _).
    exact E.
Defined.

(** ** C3 *)

(** C3.  After a refresh that upstream answers with [records], looking up
    an id in the category gives the last record of [records] with that id
    and nothing for any other id, whatever the map held before; no key is
    stored twice; the timestamp of the category is the clock reading taken
    by the refresh; and the refresh returns the values of the new map.
    Records 1, 2, 3 followed by records 2, 3, 4 leave exactly 2, 3, 4. *)
Theorem refresh_replaces_entries :
  (forall (type : Category) (records : list CachedRecord) (w : World),
     let w' := snd (run (refresh type) [Resolves records] w) in
     (forall k, map_get (entries type w') k = last_with_id records k)
     /\ NoDup (map_keys (entries type w'))
     /\ lastRefreshAt type w' = Some (clock w (ticks w))
     /\ fst (run (refresh type) [Resolves records] w) =
        Fulfilled (map_values (entries type w')))
  /\ (forall (type : Category) (n1 n2 n3 n4 : string) (w : World),
        let r i n := mkRecord (IdNum i) n in
        let w1 := snd (run (refresh type)
                         [Resolves [r 1 n1; r 2 n2; r 3 n3]] w) in
        let w2 := snd (run (refresh type)
                         [Resolves [r 2 n2; r 3 n3; r 4 n4]] w1) in
        map_values (entries type w2) = [r 2 n2; r 3 n3; r 4 n4]
        /\ map_get (entries type w2) (IdNum 1) = None).
Proof.
  split.
  - intros type records w w'. subst w'.
    rewrite run_refresh_resolves. unfold entries, lastRefreshAt. simpl.
    unfold set_lastUpdate, set_map. simpl. rewrite !get_set_same.
    repeat split.
    + intro k. rewrite map_get_set_each. simpl.
      destruct (last_with_id records k); reflexivity.
    + apply set_each_NoDup. constructor.
  - intros type n1 n2 n3 n4 w r w1 w2. subst w1 w2.
    rewrite !run_refresh_resolves. unfold entries. simpl.
    unfold set_lastUpdate, set_map. simpl. rewrite !get_set_same.
    split; reflexivity.
Qed.

(** ** C4 *)

(** C4.  When the upstream call of a refresh fails, the maps and the
    timestamps are what they were, for the category and for the other
    two, and the refresh is rejected with the error of upstream.  The same
    holds for an [ensure] that misses: it is rejected with that error and
    leaves maps and timestamps alone. *)
Theorem failed_refresh_keeps_state (type : Category) (error : Error)
  (w : World) :
  (let (p, w') := run (refresh type) [Rejects error] w in
   p = Rejected error
   /\ maps (cache w') = maps (cache w)
   /\ lastUpdate (cache w') = lastUpdate (cache w))
  /\ (let (p, w') := run (ensure type) [Rejects error] w in
      maps (cache w') = maps (cache w)
      /\ lastUpdate (cache w') = lastUpdate (cache w)
      /\ p = if serves_from_cache type w
             then Fulfilled (map_values (entries type w))
             else Rejected error).
Proof.
  split.
  - rewrite run_refresh_rejects. auto.
  - destruct (serves_from_cache type w) eqn:H.
    + rewrite (ensure_hit type _ w H). auto.
    + rewrite (run_ensure_miss type _ w H), run_refresh_rejects. simpl.
      auto.
Qed.

(** ** C6 *)

(** C6.  [addTag], [addCorrespondent] and [addDocumentType] change one
    thing: in the map of their category the entry with the id of the
    record now is the record, every other entry is as before.  The other
    two maps, all timestamps, all counters, the time-to-live, the clock and
    the log of upstream calls are untouched, so the age reported for the
    category is the same; and the record is among the values of the
    map. *)
Theorem addOne_sets_one_entry (type : Category) (record : CachedRecord)
  (w : World) :
  let w' := snd (addOne type record w) in
  (forall k, map_get (entries type w') k =
             if Id_eqb (id record) k then Some record
             else map_get (entries type w) k)
  /\ (forall other, entries other w' =
                    if Category_eqb type other
                    then map_set (entries type w) (id record) record
                    else entries other w)
  /\ lastUpdate (cache w') = lastUpdate (cache w)
  /\ stats (cache w') = stats (cache w)
  /\ CACHE_TTL (cache w') = CACHE_TTL (cache w)
  /\ (clock w' = clock w /\ ticks w' = ticks w
      /\ upstreamCalls w' = upstreamCalls w)
  /\ fst (getCacheAge type w') = fst (getCacheAge type w)
  /\ In record (map_values (entries type w')).
Proof.
  unfold addOne, modify, entries. simpl.
  assert (Hget : forall k,
    map_get (get type (set type
       (map_set (get type (maps (cache w))) (id record) record)
       (maps (cache w)))) k =
    if Id_eqb (id record) k then Some record
    else map_get (get type (maps (cache w))) k).
  { intro k. rewrite get_set_same. apply map_get_set. }
  repeat split.
  - exact Hget.
  - intro other. destruct (Category_eqb type other) eqn:E.
    + apply Category_eqb_eq in E. subst. apply get_set_same.
    + apply get_set_other. intro H. apply Category_eqb_eq in H. congruence.
  - rewrite !getCacheAge_eq. unfold lastRefreshAt. simpl.
    destruct (get type (lastUpdate (cache w))) as [t|]; [|reflexivity].
    destruct (t =? 0); reflexivity.
  - apply map_get_In with (k := id record).
    rewrite Hget, Id_eqb_refl. reflexivity.
Qed.

(** ** C7 *)

(** C7.  [clearAll] leaves three empty maps and three missing timestamps,
    keeps counters and time-to-live, calls nothing upstream and does not
    read the clock.  After it no category is served from the cache: the
    next [ensure] of any category counts a miss, counts no hit and calls
    upstream, whatever the state before [clearAll] was. *)
Theorem clearAll_forces_miss (w : World) :
  let w1 := snd (clearAll w) in
  w1 = with_cache
         (mkCache (all3 []) (all3 None) (stats (cache w))
                  (CACHE_TTL (cache w))) w
  /\ forall (type : Category) (response : Response),
       let w2 := snd (run (ensure type) [response] w1) in
       serves_from_cache type w1 = false
       /\ get type (misses (stats (cache w2))) =
          S (get type (misses (stats (cache w))))
       /\ hits (stats (cache w2)) = hits (stats (cache w))
       /\ upstreamCalls w2 = upstreamCalls w ++ [type].
Proof.
  assert (H1 : snd (clearAll w) =
               with_cache (mkCache (all3 []) (all3 None) (stats (cache w))
                                   (CACHE_TTL (cache w))) w)
    by reflexivity.
  split; [exact H1|].
  intros type response w2. subst w2. rewrite H1.
  set (w1 := with_cache _ w).
  assert (Hmiss : serves_from_cache type w1 = false).
  { unfold serves_from_cache. rewrite _isCacheValid_eq.
    unfold lastRefreshAt. destruct type; reflexivity. }
  split; [exact Hmiss|].
  destruct (ensure_miss type response w1 Hmiss) as [Hrun Hcalls].
  rewrite Hcalls. split; [|split; [|reflexivity]].
  - rewrite Hrun.
    assert (Hv : snd (_isCacheValid type w1) = w1).
    { rewrite _isCacheValid_eq. unfold lastRefreshAt.
      destruct type; reflexivity. }
    rewrite Hv.
    destruct response as [records|error].
    + rewrite run_refresh_resolves. simpl. apply get_set_same.
    + rewrite run_refresh_rejects. simpl. apply get_set_same.
  - rewrite Hrun.
    destruct response as [records|error].
    + rewrite run_refresh_resolves. reflexivity.
    + rewrite run_refresh_rejects. reflexivity.
Qed.

(** ** C10 *)

(** C10.  [refresh] has counted itself and called upstream by the time it
    is suspended at the upstream call.  When that call then fails, the
    cache differs from the one before the refresh in the refresh counter
    of the category, one higher, and in nothing else, and [getStats]
    reports that counter. *)
Theorem failed_refresh_is_counted (fl : Q -> Q) (type : Category)
  (error : Error) (w : World) :
  (let (p, w0) := refresh type w in
   is_fulfilled p = false
   /\ settle p [] w0 = (p, w0)
   /\ cache w0 = incr_refreshes type (cache w)
   /\ upstreamCalls w0 = upstreamCalls w ++ [type])
  /\ (let (p, w') := run (refresh type) [Rejects error] w in
      p = Rejected error
      /\ cache w' = incr_refreshes type (cache w)
      /\ get type (refreshes (stats (cache w'))) =
         S (get type (refreshes (stats (cache w))))
      /\ CategoryStats.refreshes
           (get type (perCategory (fst (getStats fl w')))) =
         S (get type (refreshes (stats (cache w))))).
Proof.
  split.
  - simpl. auto.
  - rewrite run_refresh_rejects.
    split; [reflexivity|]. split; [reflexivity|].
    assert (E : get type (refreshes (stats (incr_refreshes type (cache w))))
                = S (get type (refreshes (stats (cache w)))))
      by (simpl; apply get_set_same).
    split; [exact E|].
    destruct (getStats_counters fl type
      (mkWorld (incr_refreshes type (cache w)) (clock w) (ticks w)
               (upstreamCalls w ++ [type]))) as (_ & _ & Hr).
    rewrite Hr. exact E.
Qed.

(** ** C8 *)

(** C8, as stated, fails.  [resetStats] zeroes the counters, so [getStats]
    reports the hits and misses since the last [resetStats], not those of
    the whole sequence: after two [ensureTags], the first a miss and the
    second a hit, and then [resetStats], the sequence has one hit and one
    miss while [getStats] reports [totalHits = 0], [totalMisses = 0],
    [totalRequests = 0] and the hit rate [0]. *)
Lemma resetStats_forgets_hits_and_misses :
  let fl := fun x : Q => x in
  let invoice := mkRecord (IdNum 1) "invoice" in
  let calls := [CallEnsure Tags (Resolves [invoice]);
                CallEnsure Tags (Resolves [invoice]);
                CallResetStats] in
  let w0 := new_World None (fun _ => 1700000000000) in
  let w := run_calls fl calls w0 in
  let report := fst (getStats fl w) in
  let H := (hit_count fl Tags calls w0 + hit_count fl Correspondents calls w0
            + hit_count fl DocumentTypes calls w0)%nat in
  let M := (miss_count fl Tags calls w0
            + miss_count fl Correspondents calls w0
            + miss_count fl DocumentTypes calls w0)%nat in
  upstreamCalls w = [Tags]
  /\ H = 1%nat
  /\ M = 1%nat
  /\ Overall.totalHits (overall report) = 0%nat
  /\ Overall.totalMisses (overall report) = 0%nat
  /\ Overall.totalRequests (overall report) = 0%nat
  /\ Overall.hitRate (overall report) = RateZero
  /\ Overall.totalHits (overall report) <> H
  /\ Overall.totalMisses (overall report) <> M
  /\ Overall.totalRequests (overall report) <> (H + M)%nat.
Proof.
  vm_compute. repeat split; try reflexivity; discriminate.
Qed.

(** C8, amended.  Take any sequence of calls made one after the other on a
    new cache, split it after its last [resetStats] (the first part is
    empty when there is none), and let H and M be the numbers of hits and
    misses of the calls after it, counted per category by whether an
    [ensure] called upstream.  Then [getStats] reports these hits and
    misses for each category, [totalHits = H], [totalMisses = M],
    [totalRequests = H + M], and a [hitRate] that is the number [0] when
    [H + M = 0] and otherwise differs from [H / (H + M) * 100] by at most
    half a hundredth and the rounding of the two floating-point
    operations; and [getStats] leaves the cache, with its entries,
    timestamps and counters, and the log of upstream calls as they are. *)
Theorem getStats_reports_hits_and_misses_since_reset (fl : Q -> Q)
  (env : option string) (clock0 : nat -> Z) (calls : list Call) :
  rounds_to_double fl ->
  let w0 := new_World env clock0 in
  let earlier := until_last_reset calls in
  let recent := since_last_reset calls in
  let w_reset := run_calls fl earlier w0 in
  let w := run_calls fl calls w0 in
  let report := fst (getStats fl w) in
  let H := (hit_count fl Tags recent w_reset
            + hit_count fl Correspondents recent w_reset
            + hit_count fl DocumentTypes recent w_reset)%nat in
  let M := (miss_count fl Tags recent w_reset
            + miss_count fl Correspondents recent w_reset
            + miss_count fl DocumentTypes recent w_reset)%nat in
  calls = earlier ++ recent
  /\ forallb (fun call => negb (is_reset call)) recent = true
  /\ (earlier = [] \/ exists before, earlier = before ++ [CallResetStats])
  /\ (forall type,
        CategoryStats.hits (get type (perCategory report)) =
          hit_count fl type recent w_reset
        /\ CategoryStats.misses (get type (perCategory report)) =
          miss_count fl type recent w_reset)
  /\ Overall.totalHits (overall report) = H
  /\ Overall.totalMisses (overall report) = M
  /\ Overall.totalRequests (overall report) = (H + M)%nat
  /\ match Overall.hitRate (overall report) with
     | RateZero => (H + M)%nat = O
     | RateFixed n =>
         (0 < H + M)%nat
         /\ (Qabs (inject_Z n / 100 - Q_of_nat H / Q_of_nat (H + M) * 100)
             <= (1 # 200) + 101 * double_spacing)%Q
     end
  /\ cache (snd (getStats fl w)) = cache w
  /\ upstreamCalls (snd (getStats fl w)) = upstreamCalls w.
Proof.
  intros Hfl w0 earlier recent w_reset w report H M.
  destruct (split_at_last_reset calls) as (Happ & Hno & Hlast).
  fold earlier recent in Happ, Hno, Hlast.
  split; [exact Happ|]. split; [exact Hno|]. split; [exact Hlast|].
  assert (Hw : w = run_calls fl recent w_reset).
  { subst w w_reset. rewrite <- run_calls_app, <- Happ. reflexivity. }
  assert (Hzero : forall type,
            get type (hits (stats (cache w_reset))) = O
            /\ get type (misses (stats (cache w_reset))) = O).
  { intro type. subst w_reset.
    destruct Hlast as [Hnil|[before Hb]].
    - rewrite Hnil. exact (new_World_counters env clock0 type).
    - rewrite Hb, run_calls_app. simpl. destruct type; auto. }
  assert (Hcount : forall type,
    get type (hits (stats (cache w))) = hit_count fl type recent w_reset
    /\ get type (misses (stats (cache w))) =
       miss_count fl type recent w_reset).
  { intro type.
    destruct (run_calls_counters fl type recent w_reset Hno) as [Hh Hm].
    destruct (Hzero type) as [Z1 Z2].
    rewrite Hw, Hh, Hm, Z1, Z2. auto. }
  clearbody w_reset w.
  split.
  { intro type. subst report.
    destruct (getStats_counters fl type w) as (Hh & Hm & _).
    rewrite Hh, Hm. apply Hcount. }
  assert (Htot : (tags (hits (stats (cache w)))
                  + correspondents (hits (stats (cache w)))
                  + documentTypes (hits (stats (cache w))))%nat = H).
  { subst H. destruct (Hcount Tags) as [<- _].
    destruct (Hcount Correspondents) as [<- _].
    destruct (Hcount DocumentTypes) as [<- _]. reflexivity. }
  assert (Mtot : (tags (misses (stats (cache w)))
                  + correspondents (misses (stats (cache w)))
                  + documentTypes (misses (stats (cache w))))%nat = M).
  { subst M. destruct (Hcount Tags) as [_ <-].
    destruct (Hcount Correspondents) as [_ <-].
    destruct (Hcount DocumentTypes) as [_ <-]. reflexivity. }
  subst report. rewrite getStats_eq. simpl.
  rewrite Htot, Mtot.
  repeat (split; [reflexivity|]).
  split.
  - unfold hitRate_of. destruct (Nat.ltb_spec 0 (H + M)) as [Hpos|Hnone].
    + split; [exact Hpos|]. apply hitRate_near; [exact Hfl | exact Hpos | lia].
    + lia.
  - destruct (after_getStats_cache w) as (Hc & Hu & _). auto.
Qed.

Lemma getStats_reports_hits_and_misses_since_reset_witness :
  let fl := fun x : Q => x in
  let invoice := mkRecord (IdNum 1) "invoice" in
  let calls := [CallEnsure Tags (Resolves [invoice]);
                CallEnsure Tags (Resolves [invoice]);
                CallResetStats;
                CallEnsure Tags (Resolves [invoice]);
                CallEnsure Correspondents (Rejects (mkError "timeout"));
                CallGetStats;
                CallEnsure Tags (Resolves [invoice])] in
  let w0 := new_World None (fun _ => 1700000000000) in
  let report := fst (getStats fl (run_calls fl calls w0)) in
  rounds_to_double fl
  /\ until_last_reset calls = [CallEnsure Tags (Resolves [invoice]);
                               CallEnsure Tags (Resolves [invoice]);
                               CallResetStats]
  /\ Overall.totalHits (overall report) = 2%nat
  /\ Overall.totalMisses (overall report) = 1%nat
  /\ Overall.totalRequests (overall report) = 3%nat
  /\ Overall.hitRate (overall report) = RateFixed 6667.
Proof.
  intros fl invoice calls w0 report.
  assert (Hfl : rounds_to_double fl).
  { intros x _ _. unfold fl, double_spacing.
    apply Qabs_Qle_condition. split; lra. }
  split; [exact Hfl|]. split; [reflexivity|].
  destruct (getStats_reports_hits_and_misses_since_reset fl None
              (fun _ => 1700000000000) calls Hfl)
    as (_ & _ & _ & _ & Ht & Hm & Hr & _).
  split; [exact Ht|]. split; [exact Hm|]. split; [exact Hr|].
  reflexivity.
Defined.

(** ** C9 *)

(** C9, as stated, fails.  On a new cache [addTag] stores a record and
    leaves the timestamp of the tags missing: the timestamp is missing, no
    refresh has succeeded, and yet the entries are not empty. *)
Lemma addTag_breaks_absent_iff_empty :
  let fl := fun x : Q => x in
  let calls := [CallAdd Tags (mkRecord (IdNum 7) "urgent")] in
  let w0 := new_World None (fun _ => 1700000000000) in
  let w := run_calls fl calls w0 in
  ~ (lastRefreshAt Tags w = None <->
     entries Tags w = []
     /\ refreshed_since_clear fl Tags calls w0 false = false).
Proof.
  intros fl calls w0 w [H _].
  destruct (H eq_refl) as [E _]. discriminate E.
Qed.

(** C9, amended.  After any sequence of calls on a new cache, each run to
    its end, and for every category: the timestamp is missing exactly when
    no refresh of the category has succeeded since the last [clearAll];
    while it is missing, the entries are the records given to [addOne]
    since the last [clearAll], set one after the other; and a refresh that
    receives no record leaves a timestamp with no entry. *)
Theorem timestamp_absent_iff_not_refreshed (fl : Q -> Q)
  (env : option string) (clock0 : nat -> Z) (calls : list Call)
  (type : Category) :
  let w0 := new_World env clock0 in
  let w := run_calls fl calls w0 in
  (lastRefreshAt type w = None <->
   refreshed_since_clear fl type calls w0 false = false)
  /\ (lastRefreshAt type w = None ->
      entries type w = set_each [] (added_since_clear type calls []))
  /\ (let w' := snd (run (refresh type) [Resolves []] w) in
      entries type w' = [] /\ lastRefreshAt type w' <> None).
Proof.
  intros w0 w.
  assert (H0 : is_absent (lastRefreshAt type w0) = negb false)
    by (destruct type; reflexivity).
  assert (E0 : is_absent (lastRefreshAt type w0) = true ->
               entries type w0 = set_each [] [])
    by (intros _; destruct type; reflexivity).
  destruct (run_calls_category fl type calls w0 false [] H0 E0) as [Ha He].
  fold w in Ha, He.
  split; [|split].
  - destruct (lastRefreshAt type w);
      destruct (refreshed_since_clear fl type calls w0 false);
      simpl in Ha; split; intro; congruence.
  - intro Hn. apply He. now rewrite Hn.
  - rewrite run_refresh_resolves. unfold entries, lastRefreshAt. simpl.
    rewrite !get_set_same. split; [reflexivity | discriminate].
Qed.

(** ** C5 *)

(** C5, as stated, fails.  [ensure] has no guard for a refresh in flight:
    two calls of [ensureTags] made together on a new cache both miss, and
    upstream is called twice, not once. *)
Lemma two_concurrent_misses_call_upstream_twice :
  let w0 := new_World None (fun _ => 1700000000000) in
  let w1 := snd (call_n 2 ensureTags w0) in
  serves_from_cache Tags w0 = false
  /\ upstreamCalls w1 = [Tags; Tags]
  /\ List.length (upstreamCalls w1) <> 1%nat.
Proof.
  cbv. repeat split; try reflexivity. discriminate.
Qed.

(** C5, amended.  [n] calls of [ensure] made together, on a category that
    is not served from the cache at any later clock reading, call upstream
    [n] times, once each, and count [n] misses and [n] refreshes; all are
    then suspended.  If upstream answers every one of them with the same
    records, then however the responses and the jobs are ordered each call
    is waiting for its response, has its last line queued, or has returned
    the values of the map built from these records; it has returned once
    its response has arrived and its job has run.  No further upstream
    call is made. *)
Theorem concurrent_misses_each_call_upstream (type : Category) (n : nat)
  (records : list CachedRecord) (events : list Event) (w : World) :
  (forall k, (ticks w <= k)%nat ->
             serves_from_cache type (at_reading k w) = false) ->
  Forall (answers_with records) events ->
  let w1 := snd (call_n n (ensure type) w) in
  let pool := fst (call_n n (ensure type) w) in
  let w2 := snd (event_loop events pool w1) in
  let pool' := fst (event_loop events pool w1) in
  upstreamCalls w1 = upstreamCalls w ++ repeat type n
  /\ get type (misses (stats (cache w1))) =
     (get type (misses (stats (cache w))) + n)%nat
  /\ get type (refreshes (stats (cache w1))) =
     (get type (refreshes (stats (cache w))) + n)%nat
  /\ pool = repeat (ensure_suspended type) n
  /\ upstreamCalls w2 = upstreamCalls w1
  /\ stats (cache w2) = stats (cache w1)
  /\ List.length pool' = n
  /\ forall i, (i < n)%nat ->
       nth_error pool' i =
       Some (thread_at type records (stage_of events i Waiting)).
Proof.
  intros Hmiss Hans w1 pool w2 pool'.
  destruct (call_n_misses type n w Hmiss) as (Hp & Hc & Hu & _).
  fold pool in Hp. fold w1 in Hc, Hu.
  destruct (count_miss_iter type n (cache w)) as (_ & _ & _ & _ & Hm & Hr).
  simpl in Hm, Hr.
  assert (Hpool : pool = List.map (thread_at type records)
                           (repeat Waiting n)).
  { rewrite Hp. clear. induction n; simpl; [reflexivity|]. now f_equal. }
  assert (Hok : pool_ok type records (repeat Waiting n) w1).
  { left. clear. induction n; simpl; constructor; auto. }
  destruct (event_loop_stages type records events (repeat Waiting n) w1
              Hans Hok) as (Hp' & Hs' & Hu').
  rewrite <- Hpool in Hp', Hs', Hu'. fold pool' in Hp'. fold w2 in Hs', Hu'.
  split; [exact Hu|].
  split; [rewrite Hc, (Hm type), Category_eqb_refl; reflexivity|].
  split; [rewrite Hc, (Hr type), Category_eqb_refl; reflexivity|].
  split; [exact Hp|]. split; [exact Hu'|]. split; [exact Hs'|].
  assert (Hlen : forall evs stages,
            List.length (stages_after evs stages) = List.length stages).
  { clear. induction evs as [|e rest IH]; intro stages; simpl; [reflexivity|].
    rewrite IH. generalize (target e). clear.
    induction stages as [|s r IHs]; intros [|j]; simpl; auto. }
  split.
  - rewrite Hp', length_map, Hlen. apply repeat_length.
  - intros i Hi. rewrite Hp', nth_error_map, stages_after_error.
    rewrite (nth_error_repeat Waiting Hi). reflexivity.
Qed.

Lemma concurrent_misses_each_call_upstream_witness :
  let invoice := mkRecord (IdNum 1) "invoice" in
  let events := [Arrives 0 (Resolves [invoice]); Arrives 1 (Resolves [invoice]);
                 Job 0; Job 1] in
  let w := new_World None (fun _ => 1700000000000) in
  let w1 := snd (call_n 2 (ensure Tags) w) in
  let pool := fst (call_n 2 (ensure Tags) w) in
  (forall k, (ticks w <= k)%nat ->
             serves_from_cache Tags (at_reading k w) = false)
  /\ Forall (answers_with [invoice]) events
  /\ upstreamCalls w1 = [Tags; Tags]
  /\ fst (event_loop events pool w1) =
     [Fulfilled [invoice]; Fulfilled [invoice]].
Proof.
  intros invoice events w w1 pool.
  assert (Hmiss : forall k, (ticks w <= k)%nat ->
                    serves_from_cache Tags (at_reading k w) = false)
    by (intros k _; reflexivity).
  assert (Hans : Forall (answers_with [invoice]) events)
    by (repeat constructor).
  split; [exact Hmiss|]. split; [exact Hans|].
  destruct (concurrent_misses_each_call_upstream Tags 2 [invoice] events w
              Hmiss Hans) as (Hu & _ & _ & _ & _ & _ & Hlen & Hnth).
  split; [exact Hu|].
  fold w1 pool in Hlen, Hnth.
  pose proof (Hnth 0%nat (Nat.lt_0_succ 1)) as H0.
  pose proof (Hnth 1%nat (Nat.lt_succ_diag_r 1)) as H1.
  destruct (fst (event_loop events pool w1)) as [|p0 [|p1 [|p2 rest]]];
    try discriminate.
  simpl in H0, H1. injection H0 as ->. injection H1 as ->. reflexivity.
Defined.

(* ================================================================== *)
(** * More of the code *)

(** ** The validity test and the time-to-live *)

(** [_isCacheValid], lines 50-57: with a timestamp other than [0] and a
    numeric time-to-live the test compares the age at the clock reading it
    takes with the time-to-live, strictly.  *)
Theorem _isCacheValid_compares_age (type : Category) (w : World)
  (t ttl : Z) :
  lastRefreshAt type w = Some t ->
  t <> 0 ->
  CACHE_TTL (cache w) = Some ttl ->
  fst (_isCacheValid type w) = (clock w (ticks w) - t <? ttl)
  /\ snd (_isCacheValid type w) = tick w.
Proof.
  intros Ht H0 Httl. rewrite _isCacheValid_eq, Ht.
  apply Z.eqb_neq in H0. rewrite H0, Httl. auto.
Qed.

Lemma _isCacheValid_compares_age_witness :
  let w := mkWorld
             (mkCache (all3 []) (mkPer (Some 1000) None None) zeroStats
                      (Some 30))
             (fun _ => 1029) 0 [] in
  lastRefreshAt Tags w = Some 1000
  /\ 1000 <> 0
  /\ CACHE_TTL (cache w) = Some 30
  /\ fst (_isCacheValid Tags w) = true.
Proof.
  intro w.
  assert (H1 : lastRefreshAt Tags w = Some 1000) by reflexivity.
  assert (H2 : 1000 <> 0) by discriminate.
  assert (H3 : CACHE_TTL (cache w) = Some 30) by reflexivity.
  split; [exact H1|]. split; [exact H2|]. split; [exact H3|].
  destruct (_isCacheValid_compares_age Tags w 1000 30 H1 H2 H3) as [E _].
  rewrite E. reflexivity.
Defined.

(** [refresh] then [ensure], lines 76-115: after a refresh that stored at
    least one record at a clock reading [t0] other than [0], the next
    [ensure] is served from the cache exactly when the reading it takes is
    less than the time-to-live after [t0]; so it is a hit at
    [t0 + ttl - 1] and a miss at [t0 + ttl]. *)
Theorem ensure_after_refresh_ttl_boundary (type : Category)
  (records : list CachedRecord) (response : Response) (w : World)
  (ttl : Z) :
  CACHE_TTL (cache w) = Some ttl ->
  records <> [] ->
  clock w (ticks w) <> 0 ->
  let t0 := clock w (ticks w) in
  let now := clock w (S (ticks w)) in
  let w1 := snd (run (refresh type) [Resolves records] w) in
  let w2 := snd (run (ensure type) [response] w1) in
  serves_from_cache type w1 = (now - t0 <? ttl)
  /\ (now = t0 + ttl - 1 -> 0 < ttl -> upstreamCalls w2 = upstreamCalls w1)
  /\ (now = t0 + ttl -> upstreamCalls w2 = upstreamCalls w1 ++ [type]).
Proof.
  intros Httl Hrec Ht0 t0 now w1 w2.
  assert (Hserves : serves_from_cache type w1 = (now - t0 <? ttl)).
  { subst w1. rewrite run_refresh_resolves.
    unfold serves_from_cache. rewrite _isCacheValid_eq.
    unfold lastRefreshAt, entries. simpl. rewrite !get_set_same.
    apply Z.eqb_neq in Ht0. rewrite Ht0, Httl. simpl.
    assert (Hsize : (0 <? map_size (set_each [] records)) = true).
    { destruct records as [|r rest]; [congruence|].
      simpl. unfold map_size.
      assert (Hlen : forall l m, (List.length m <= List.length (set_each m l))%nat).
      { clear. induction l as [|x l IH]; intro m; simpl; [lia|].
        etransitivity; [|apply IH].
        clear. induction m as [|[k v] m IHm]; simpl; [lia|].
        destruct (Id_eqb k (id x)); simpl; lia. }
      specialize (Hlen rest [(id r, r)]). simpl in Hlen.
      apply Z.ltb_lt. lia. }
    rewrite Hsize, andb_true_r. reflexivity. }
  split; [exact Hserves|]. split.
  - intros Hnow Hpos.
    assert (H : serves_from_cache type w1 = true).
    { rewrite Hserves. apply Z.ltb_lt. lia. }
    subst w2. rewrite (ensure_hit type response w1 H). reflexivity.
  - intros Hnow.
    assert (H : serves_from_cache type w1 = false).
    { rewrite Hserves. apply Z.ltb_ge. lia. }
    subst w2. apply ensure_miss, H.
Qed.

Lemma ensure_after_refresh_ttl_boundary_witness :
  let invoice := mkRecord (IdNum 1) "invoice" in
  let w := new_World (Some "1000"%string)
             (fun n => match n with O => 5000 | _ => 5999 end) in
  let w1 := snd (run (refresh Tags) [Resolves [invoice]] w) in
  CACHE_TTL (cache w) = Some 1000
  /\ [invoice] <> []
  /\ clock w (ticks w) <> 0
  /\ serves_from_cache Tags w1 = true.
Proof.
  intros invoice w w1.
  assert (H1 : CACHE_TTL (cache w) = Some 1000) by reflexivity.
  assert (H2 : [invoice] <> []) by discriminate.
  assert (H3 : clock w (ticks w) <> 0) by discriminate.
  split; [exact H1|]. split; [exact H2|]. split; [exact H3|].
  destruct (ensure_after_refresh_ttl_boundary Tags [invoice]
              (Resolves [invoice]) w 1000 H1 H2 H3) as [E _].
  fold w1 in E. rewrite E. reflexivity.
Defined.

(** [ensure] with [METADATA_CACHE_TTL=0], lines 42 and 50-86: when the
    clock does not run backwards and the timestamp of the category, if
    any, is not in the future, two [ensure] calls in a row both call
    upstream and neither counts a hit. *)
Theorem zero_ttl_always_misses (type : Category) (r1 r2 : Response)
  (w : World) :
  CACHE_TTL (cache w) = Some 0 ->
  (forall i j, (i <= j)%nat -> clock w i <= clock w j) ->
  (forall t, lastRefreshAt type w = Some t -> t <= clock w (ticks w)) ->
  let w1 := snd (run (ensure type) [r1] w) in
  let w2 := snd (run (ensure type) [r2] w1) in
  upstreamCalls w2 = upstreamCalls w ++ [type; type]
  /\ hits (stats (cache w2)) = hits (stats (cache w)).
Proof.
  intros Httl Hmono Hpast w1 w2.
  assert (Hnever : forall v, CACHE_TTL (cache v) = Some 0 ->
            (forall t, lastRefreshAt type v = Some t ->
                       t <= clock v (ticks v)) ->
            serves_from_cache type v = false).
  { intros v Hv Hp. unfold serves_from_cache. rewrite _isCacheValid_eq.
    destruct (lastRefreshAt type v) as [t|]; [|reflexivity].
    destruct (t =? 0); [reflexivity|]. rewrite Hv. simpl.
    specialize (Hp t eq_refl).
    replace (clock v (ticks v) - t <? 0) with false; [reflexivity|].
    symmetry. apply Z.ltb_ge. lia. }
  pose proof (Hnever w Httl Hpast) as H1.
  set (wm := with_cache (incr_misses type (cache w))
               (snd (_isCacheValid type w))).
  assert (Hwm : clock wm = clock w /\ (ticks w <= ticks wm)%nat
                /\ upstreamCalls wm = upstreamCalls w
                /\ lastRefreshAt type wm = lastRefreshAt type w
                /\ CACHE_TTL (cache wm) = Some 0
                /\ hits (stats (cache wm)) = hits (stats (cache w))).
  { destruct (_isCacheValid_cache type w) as (_ & Hu & Hk).
    pose proof (_isCacheValid_ticks type w). subst wm. simpl. auto 10. }
  destruct Hwm as (Hk & Hticks & Hu & Hl & Httlm & Hh).
  assert (E1 : w1 = snd (run (refresh type) [r1] wm)).
  { subst w1. now rewrite (run_ensure_miss type r1 w H1). }
  clearbody wm.
  assert (Hw1 : CACHE_TTL (cache w1) = Some 0
                /\ upstreamCalls w1 = upstreamCalls w ++ [type]
                /\ hits (stats (cache w1)) = hits (stats (cache w))
                /\ forall t, lastRefreshAt type w1 = Some t ->
                             t <= clock w1 (ticks w1)).
  { rewrite E1. destruct r1 as [records|error].
    - rewrite run_refresh_resolves. unfold lastRefreshAt. simpl.
      rewrite get_set_same, Hu, Hk.
      repeat split; auto.
      intros t Ht. injection Ht as <-. apply Hmono. lia.
    - rewrite run_refresh_rejects. unfold lastRefreshAt in *. simpl.
      rewrite Hu, Hk.
      repeat split; auto.
      intros t Ht. rewrite Hl in Ht. specialize (Hpast t Ht).
      specialize (Hmono _ _ Hticks). lia. }
  destruct Hw1 as (Httl1 & Hu1 & Hh1 & Hpast1).
  pose proof (Hnever w1 Httl1 Hpast1) as H2.
  destruct (ensure_miss type r2 w1 H2) as [Hrun Hcalls].
  fold w2 in Hcalls. rewrite Hcalls, Hu1, <- app_assoc. split; [reflexivity|].
  subst w2. rewrite Hrun.
  destruct (run_refresh_stats type r2
    (with_cache (incr_misses type (cache w1)) (snd (_isCacheValid type w1))))
    as (Hh2 & _).
  rewrite Hh2. simpl. exact Hh1.
Qed.

Lemma zero_ttl_always_misses_witness :
  let invoice := mkRecord (IdNum 1) "invoice" in
  let w := new_World (Some "0"%string) (fun n => 1000 + Z.of_nat n) in
  let w1 := snd (run (ensure Tags) [Resolves [invoice]] w) in
  let w2 := snd (run (ensure Tags) [Resolves [invoice]] w1) in
  CACHE_TTL (cache w) = Some 0
  /\ (forall i j, (i <= j)%nat -> clock w i <= clock w j)
  /\ (forall t, lastRefreshAt Tags w = Some t -> t <= clock w (ticks w))
  /\ upstreamCalls w2 = [Tags; Tags].
Proof.
  intros invoice w w1 w2.
  assert (H1 : CACHE_TTL (cache w) = Some 0) by reflexivity.
  assert (H2 : forall i j, (i <= j)%nat -> clock w i <= clock w j)
    by (intros i j Hij;
        change (1000 + Z.of_nat i <= 1000 + Z.of_nat j); lia).
  assert (H3 : forall t, lastRefreshAt Tags w = Some t ->
                         t <= clock w (ticks w))
    by (intros t Ht; discriminate Ht).
  split; [exact H1|]. split; [exact H2|]. split; [exact H3|].
  destruct (zero_ttl_always_misses Tags (Resolves [invoice])
              (Resolves [invoice]) w H1 H2 H3) as [E _].
  exact E.
Defined.



(** ** The maps *)

(** [refresh], lines 97-109: when the records of upstream have distinct
    ids, the refresh returns them as they came, in the same order, and the
    map holds one entry for each. *)
Theorem refresh_returns_upstream_records (type : Category)
  (records : list CachedRecord) (w : World) :
  NoDup (List.map id records) ->
  let w' := snd (run (refresh type) [Resolves records] w) in
  fst (run (refresh type) [Resolves records] w) = Fulfilled records
  /\ map_keys (entries type w') = List.map id records
  /\ map_size (entries type w') = Z.of_nat (List.length records).
Proof.
  intros Hnd w'. subst w'. rewrite run_refresh_resolves.
  unfold entries. simpl. rewrite get_set_same.
  rewrite (set_each_distinct records []) by exact Hnd. simpl.
  unfold map_values, map_keys, map_size.
  rewrite !map_map, length_map. simpl.
  rewrite map_id. auto.
Qed.

Lemma refresh_returns_upstream_records_witness :
  let records := [mkRecord (IdNum 3) "c"; mkRecord (IdStr "3") "b";
                  mkRecord (IdNum 1) "a"] in
  let w := new_World None (fun _ => 1700000000000) in
  NoDup (List.map id records)
  /\ fst (run (refresh Tags) [Resolves records] w) = Fulfilled records.
Proof.
  intros records w.
  assert (H : NoDup (List.map id records)).
  { repeat constructor; simpl; intuition discriminate. }
  split; [exact H|].
  apply (refresh_returns_upstream_records Tags records w H).
Defined.

(** [refresh] then [ensure], lines 77 and 97-104: a refresh that receives
    no record leaves a timestamp, but an empty map is never served: the
    next [ensure] calls upstream again, however short the time since. *)
Theorem empty_refresh_is_not_served (type : Category) (response : Response)
  (w : World) :
  let w1 := snd (run (refresh type) [Resolves []] w) in
  let w2 := snd (run (ensure type) [response] w1) in
  lastRefreshAt type w1 = Some (clock w (ticks w))
  /\ entries type w1 = []
  /\ serves_from_cache type w1 = false
  /\ upstreamCalls w2 = upstreamCalls w ++ [type; type].
Proof.
  intros w1 w2.
  assert (E : entries type w1 = []
              /\ lastRefreshAt type w1 = Some (clock w (ticks w))
              /\ upstreamCalls w1 = upstreamCalls w ++ [type]).
  { subst w1. rewrite run_refresh_resolves.
    unfold entries, lastRefreshAt. simpl. rewrite !get_set_same. auto. }
  destruct E as (He & Hl & Hu).
  assert (Hs : serves_from_cache type w1 = false).
  { unfold serves_from_cache. rewrite He. apply andb_false_r. }
  repeat split; try assumption.
  destruct (ensure_miss type response w1 Hs) as [_ Hc].
  fold w2 in Hc. rewrite Hc, Hu, <- app_assoc. reflexivity.
Qed.

(** [addTag] and its siblings, lines 255-274: a record whose id is in the
    map takes the place of the old one, the keys and their order stay; a
    record with a new id goes to the end and the size grows by one. *)
Theorem addOne_keeps_order (type : Category) (record : CachedRecord)
  (w : World) :
  let m := entries type w in
  let m' := entries type (snd (addOne type record w)) in
  map_keys m' =
    (if map_has m (id record) then map_keys m
     else map_keys m ++ [id record])
  /\ map_size m' =
    (if map_has m (id record) then map_size m else map_size m + 1).
Proof.
  intros m m'. subst m m'. unfold addOne, modify, entries. simpl.
  rewrite get_set_same.
  pose proof (map_keys_set (get type (maps (cache w))) (id record) record)
    as Hk.
  split; [exact Hk|].
  unfold map_size.
  replace (List.length (map_set (get type (maps (cache w))) (id record) record))
    with (List.length (map_keys
            (map_set (get type (maps (cache w))) (id record) record)))
    by apply length_map.
  rewrite Hk.
  destruct (map_has (get type (maps (cache w))) (id record)).
  - unfold map_keys. now rewrite length_map.
  - unfold map_keys. rewrite length_app, length_map. simpl. lia.
Qed.

(** All methods that write a map, lines 99-102, 240-242, 256, 264, 272:
    after any sequence of calls on a new cache, no map holds a key twice
    and every record is stored under its own id. *)
Theorem maps_stay_keyed_by_id (fl : Q -> Q) (env : option string)
  (clock0 : nat -> Z) (calls : list Call) (type : Category) :
  keyed_by_id (entries type (run_calls fl calls (new_World env clock0))).
Proof.
  assert (H : forall w, keyed_by_id (entries type w) ->
                        keyed_by_id (entries type (run_calls fl calls w))).
  { induction calls as [|call rest IH]; intros w Hw; simpl; [exact Hw|].
    apply IH.
    destruct (run_call_entries fl call type w) as [E|[[r E]|[records E]]];
      simpl in E; rewrite E.
    - exact Hw.
    - apply map_set_keyed, Hw.
    - apply set_each_keyed, empty_keyed. }
  apply H. destruct type; apply empty_keyed.
Qed.

(** ** The counters and the report *)

(** [resetStats] and [getStats], lines 279-333: after [resetStats] the
    maps, the timestamps and the time-to-live are as before, and
    [getStats] reports zero hits, misses and refreshes for every category,
    zero totals and the hit rate [0]. *)
Theorem resetStats_zeroes_the_report (fl : Q -> Q) (w : World) :
  let w' := snd (resetStats w) in
  let report := fst (getStats fl w') in
  w' = with_cache (mkCache (maps (cache w)) (lastUpdate (cache w)) zeroStats
                           (CACHE_TTL (cache w))) w
  /\ (forall type,
        CategoryStats.hits (get type (perCategory report)) = O
        /\ CategoryStats.misses (get type (perCategory report)) = O
        /\ CategoryStats.refreshes (get type (perCategory report)) = O)
  /\ Overall.totalHits (overall report) = O
  /\ Overall.totalMisses (overall report) = O
  /\ Overall.totalRequests (overall report) = O
  /\ Overall.hitRate (overall report) = RateZero.
Proof.
  intros w' report. split; [reflexivity|]. split.
  - intro type. subst report.
    destruct (getStats_counters fl type w') as (Hh & Hm & Hr).
    rewrite Hh, Hm, Hr. destruct type; auto.
  - subst report. rewrite getStats_eq. simpl. auto.
Qed.

(** [getStats], lines 280-283: whatever the counters, the hit rate is the
    number [0], when nothing was requested, or a value from 0.00 to
    100.00. *)
Theorem hitRate_is_a_percentage (fl : Q -> Q) (w : World) :
  rounds_to_double fl ->
  let report := fst (getStats fl w) in
  match Overall.hitRate (overall report) with
  | RateZero => Overall.totalRequests (overall report) = O
  | RateFixed n => 0 <= n <= 10000
  end.
Proof.
  intros Hfl report. subst report. rewrite getStats_eq. simpl.
  set (h := (tags (hits (stats (cache w)))
             + correspondents (hits (stats (cache w)))
             + documentTypes (hits (stats (cache w))))%nat).
  set (m := (tags (misses (stats (cache w)))
             + correspondents (misses (stats (cache w)))
             + documentTypes (misses (stats (cache w))))%nat).
  unfold hitRate_of.
  destruct (Nat.ltb_spec 0 (h + m)) as [Hpos|Hzero]; [|lia].
  assert (Hle : (h <= h + m)%nat) by lia.
  pose proof (hitRate_near fl h (h + m) Hfl Hpos Hle) as Hnear.
  destruct (ratio_bounds h (h + m) Hpos Hle) as [Hq0 Hq1].
  set (q := (Q_of_nat h / Q_of_nat (h + m))%Q) in *.
  set (n := toFixed2 (fl (fl q * 100)%Q)) in *.
  apply Qabs_Qle_condition in Hnear. unfold double_spacing in Hnear.
  assert (E : (inject_Z n / 100 == inject_Z n * (1 # 100))%Q) by reflexivity.
  rewrite E in Hnear. destruct Hnear as [Hlo Hhi].
  split.
  - assert (H : (inject_Z (-1) < inject_Z n)%Q)
      by (change (inject_Z (-1)) with (- (1))%Q; lra).
    rewrite <- Zlt_Qlt in H. lia.
  - assert (H : (inject_Z n < inject_Z 10001)%Q)
      by (change (inject_Z 10001) with 10001%Q; lra).
    rewrite <- Zlt_Qlt in H. lia.
Qed.

Lemma hitRate_is_a_percentage_witness :
  let fl := fun x : Q => x in
  let w := mkWorld
             (mkCache (all3 []) (all3 None)
                (mkStats (mkPer 2%nat 0%nat 0%nat) (mkPer 1%nat 0%nat 0%nat)
                         (all3 0%nat))
                (Some 1800000))
             (fun _ => 1700000000000) 0 [] in
  rounds_to_double fl
  /\ Overall.hitRate (overall (fst (getStats fl w))) = RateFixed 6667
  /\ 0 <= 6667 <= 10000.
Proof.
  intros fl w.
  assert (Hfl : rounds_to_double fl).
  { intros x _ _. unfold fl, double_spacing.
    apply Qabs_Qle_condition. split; lra. }
  split; [exact Hfl|].
  assert (E : Overall.hitRate (overall (fst (getStats fl w))) = RateFixed 6667)
    by reflexivity.
  split; [exact E|].
  pose proof (hitRate_is_a_percentage fl w Hfl) as H.
  cbv zeta in H. rewrite E in H. exact H.
Defined.

(** [refresh], [ensure] and [refreshAll], lines 83-97, 137-141, 181-185
    and 215-219: after any sequence of calls without [resetStats] on a new
    cache, the refresh counter of a category is the number of calls made
    to its upstream method, and its miss counter is not above that. *)
Theorem refreshes_count_upstream_calls (fl : Q -> Q) (env : option string)
  (clock0 : nat -> Z) (calls : list Call) (type : Category) :
  forallb (fun call => negb (is_reset call)) calls = true ->
  let w := run_calls fl calls (new_World env clock0) in
  get type (refreshes (stats (cache w))) = calls_to type (upstreamCalls w)
  /\ (get type (misses (stats (cache w)))
      <= get type (refreshes (stats (cache w))))%nat.
Proof.
  intros Hno w.
  assert (H : forall v,
    forallb (fun call => negb (is_reset call)) calls = true ->
    get type (refreshes (stats (cache v))) = calls_to type (upstreamCalls v) ->
    (get type (misses (stats (cache v)))
     <= get type (refreshes (stats (cache v))))%nat ->
    get type (refreshes (stats (cache (run_calls fl calls v)))) =
      calls_to type (upstreamCalls (run_calls fl calls v))
    /\ (get type (misses (stats (cache (run_calls fl calls v))))
        <= get type (refreshes (stats (cache (run_calls fl calls v)))))%nat).
  { clear. induction calls as [|call rest IH]; intros v Hno Hr Hm; simpl.
    - auto.
    - simpl in Hno. apply andb_prop in Hno as [Hc Hrest].
      apply negb_true_iff in Hc.
      destruct (run_call_upstream fl call v Hc) as (l & Hu & Hcount).
      destruct (Hcount type) as (Hr' & Hlo & Hhi).
      apply IH; [exact Hrest | |].
      + rewrite Hu, calls_to_app, Hr', Hr. reflexivity.
      + rewrite Hr'. lia. }
  apply H; [exact Hno | destruct type; reflexivity | destruct type; simpl; lia].
Qed.

Lemma refreshes_count_upstream_calls_witness :
  let fl := fun x : Q => x in
  let invoice := mkRecord (IdNum 1) "invoice" in
  let calls := [CallEnsure Tags (Rejects (mkError "timeout"));
                CallRefreshAll [(Tags, Resolves [invoice])];
                CallEnsure Tags (Resolves [invoice])] in
  let w := run_calls fl calls (new_World None (fun _ => 1700000000000)) in
  forallb (fun call => negb (is_reset call)) calls = true
  /\ get Tags (refreshes (stats (cache w))) = 2%nat
  /\ upstreamCalls w = [Tags; Tags; Correspondents; DocumentTypes].
Proof.
  intros fl invoice calls w.
  assert (Hno : forallb (fun call => negb (is_reset call)) calls = true)
    by reflexivity.
  split; [exact Hno|].
  destruct (refreshes_count_upstream_calls fl None (fun _ => 1700000000000)
              calls Tags Hno) as [E _].
  fold w in E. split; [rewrite E|]; reflexivity.
Defined.

(** [getCacheAge], lines 62-71: with a timestamp other than [0] that is
    not in the future, the text is made of the whole minutes of the age
    and of the whole seconds left, which are fewer than sixty; together
    they are the age up to less than a second.  Without such a timestamp
    the text is ['Never'] and the clock is not read. *)
Theorem getCacheAge_minutes_and_seconds (type : Category) (w : World) :
  match lastRefreshAt type w with
  | None => getCacheAge type w = ("Never"%string, w)
  | Some t =>
      if t =? 0 then getCacheAge type w = ("Never"%string, w)
      else
        let age := clock w (ticks w) - t in
        getCacheAge type w = (age_text age, tick w)
        /\ (0 <= age ->
            0 <= age_minutes age
            /\ 0 <= age_seconds age < 60
            /\ age_minutes age * 60000 + age_seconds age * 1000 <= age
            /\ age < age_minutes age * 60000 + age_seconds age * 1000 + 1000)
  end.
Proof.
  rewrite getCacheAge_eq.
  destruct (lastRefreshAt type w) as [t|]; [|reflexivity].
  destruct (t =? 0); [reflexivity|].
  split; [reflexivity|].
  intro Hage. set (age := clock w (ticks w) - t) in *.
  unfold age_minutes, age_seconds.
  rewrite Z.rem_mod_nonneg by lia.
  pose proof (Z.div_mod age 60000 ltac:(lia)) as H1.
  pose proof (Z.mod_pos_bound age 60000 ltac:(lia)) as H2.
  pose proof (Z.div_mod (age mod 60000) 1000 ltac:(lia)) as H3.
  pose proof (Z.mod_pos_bound (age mod 60000) 1000 ltac:(lia)) as H4.
  pose proof (Z.div_pos age 60000 Hage ltac:(lia)) as H5.
  pose proof (Z.div_pos (age mod 60000) 1000 ltac:(lia) ltac:(lia)) as H6.
  assert (H7 : age mod 60000 / 1000 < 60)
    by (apply Z.div_lt_upper_bound; lia).
  lia.
Qed.

(** ** [refreshAll] *)

(** [refreshAll], lines 208-231: the three upstream methods are called, in
    the order tags, correspondents, document types, and the three refresh
    counters go up, before any response is there.  Then, in whatever
    order the responses arrive, a category whose refresh receives records
    holds exactly these and has a timestamp; a category whose refresh
    fails, or gets no response, keeps its entries and its timestamp.  Hit
    and miss counters do not move. *)
Theorem refreshAll_refreshes_each_category
  (arrivals : list (Category * Response)) (w : World) :
  let w' := snd (run_refreshAll arrivals w) in
  upstreamCalls (snd (refreshAll w)) =
    upstreamCalls w ++ [Tags; Correspondents; DocumentTypes]
  /\ upstreamCalls w' = upstreamCalls w ++ [Tags; Correspondents; DocumentTypes]
  /\ (forall t, get t (refreshes (stats (cache w'))) =
                S (get t (refreshes (stats (cache w)))))
  /\ hits (stats (cache w')) = hits (stats (cache w))
  /\ misses (stats (cache w')) = misses (stats (cache w))
  /\ forall t,
       match first_arrival t arrivals with
       | Some (Resolves records) =>
           entries t w' = set_each [] records
           /\ lastRefreshAt t w' <> None
       | _ =>
           entries t w' = entries t w
           /\ lastRefreshAt t w' = lastRefreshAt t w
       end.
Proof.
  intro w'.
  destruct (run_refreshAll_effect arrivals w)
    as (Hh & Hm & Hr & _ & Hu & _ & Hcat).
  fold w' in Hh, Hm, Hr, Hu, Hcat.
  split; [rewrite refreshAll_start; reflexivity|].
  repeat (split; [assumption|]).
  intro t. specialize (Hcat t).
  destruct (first_arrival t arrivals) as [[records|error]|]; try exact Hcat.
  destruct Hcat as [He Ha]. split; [exact He|].
  destruct (lastRefreshAt t w'); [discriminate | discriminate Ha].
Qed.

(** [refreshAll], lines 215-225: when each of the three refreshes receives
    records, [refreshAll] returns [true], in whatever order the responses
    arrive and whatever else arrives. *)
Theorem refreshAll_returns_true (arrivals : list (Category * Response))
  (w : World) :
  (forall t, exists records,
     first_arrival t arrivals = Some (Resolves records)) ->
  outcome (fst (run_refreshAll arrivals w)) = Some (Fulfilled true).
Proof.
  intro Hall. unfold run_refreshAll, bind. rewrite refreshAll_start.
  apply settle_all_resolve; [reflexivity | reflexivity |].
  intro t. left. split; [destruct t; reflexivity | apply Hall].
Qed.

Lemma refreshAll_returns_true_witness :
  let a := mkRecord (IdNum 1) "a" in
  let arrivals := [(DocumentTypes, Resolves []); (Tags, Resolves [a]);
                   (Tags, Rejects (mkError "late"));
                   (Correspondents, Resolves [a; a])] in
  let w := new_World None (fun _ => 1700000000000) in
  (forall t, exists records,
     first_arrival t arrivals = Some (Resolves records))
  /\ outcome (fst (run_refreshAll arrivals w)) = Some (Fulfilled true).
Proof.
  intros a arrivals w.
  assert (H : forall t, exists records,
                first_arrival t arrivals = Some (Resolves records)).
  { intros []; simpl; eauto. }
  split; [exact H|].
  apply (refreshAll_returns_true arrivals w H).
Defined.

(** [refreshAll], lines 215-229: when the first response to arrive is a
    failure, [refreshAll] throws that error; the two other refreshes go on
    all the same, and one that then receives records replaces the entries
    of its category. *)
Theorem refreshAll_throws_first_error (type : Category) (error : Error)
  (rest : list (Category * Response)) (w : World) :
  let arrivals := (type, Rejects error) :: rest in
  let w' := snd (run_refreshAll arrivals w) in
  outcome (fst (run_refreshAll arrivals w)) = Some (Rejected error)
  /\ entries type w' = entries type w
  /\ lastRefreshAt type w' = lastRefreshAt type w
  /\ forall t,
       match first_arrival t arrivals with
       | Some (Resolves records) => entries t w' = set_each [] records
       | _ => entries t w' = entries t w
       end.
Proof.
  intros arrivals w'. split.
  - unfold run_refreshAll, bind. rewrite refreshAll_start.
    subst arrivals. simpl. unfold bind.
    set (call0 := mkRefreshAll _ _ _). set (w0 := mkWorld _ _ _ _).
    assert (E : outcome (fst (refreshAll_deliver type (Rejects error)
                                call0 w0)) = Some (Rejected error))
      by (destruct type; reflexivity).
    destruct (refreshAll_deliver type (Rejects error) call0 w0)
      as [call1 w1].
    apply settle_outcome_sticky. exact E.
  - destruct (run_refreshAll_effect arrivals w)
      as (_ & _ & _ & _ & _ & _ & Hcat).
    fold w' in Hcat.
    pose proof (Hcat type) as Ht. subst arrivals. simpl in Ht.
    rewrite Category_eqb_refl in Ht. destruct Ht as [He Hl].
    split; [exact He|]. split; [exact Hl|].
    intro t. specialize (Hcat t).
    destruct (first_arrival t ((type, Rejects error) :: rest))
      as [[records|e]|]; apply Hcat.
Qed.

(** ** Calls that overlap *)

(** [refresh], lines 97-104: of two refreshes of a category in flight at
    once, the one whose response arrives last decides what the cache
    holds, also when its call was made first; each returns the records of
    its own response. *)
Theorem later_response_overwrites (type : Category)
  (first second : list CachedRecord) (w : World) :
  let w1 := snd (call_n 2 (refresh type) w) in
  let pool := fst (call_n 2 (refresh type) w) in
  let events := [Arrives 1 (Resolves second); Arrives 0 (Resolves first)] in
  let w2 := snd (event_loop events pool w1) in
  upstreamCalls w2 = upstreamCalls w ++ [type; type]
  /\ entries type w2 = set_each [] first
  /\ fst (event_loop events pool w1) =
     [Fulfilled (map_values (set_each [] first));
      Fulfilled (map_values (set_each [] second))].
Proof.
  intros w1 pool events w2. subst w1 pool events w2.
  unfold call_n, refresh, bind, modify, call_upstream, ret. simpl.
  unfold entries, map_clear, set_lastUpdate, set_map. simpl.
  rewrite !get_set_same, <- app_assoc. auto.
Qed.

(** [ensure], lines 83-85: the last line of an [ensure] that missed reads
    the map when it runs, after the refresh has returned.  Of two such
    calls in flight at once, whose responses both arrive before either
    last line runs, both return the records of the second response: the
    first call returns records it did not fetch. *)
Theorem ensure_returns_entries_at_resumption (type : Category)
  (first second : list CachedRecord) (w : World) :
  let w0 := snd (clearAll w) in
  let w1 := snd (call_n 2 (ensure type) w0) in
  let pool := fst (call_n 2 (ensure type) w0) in
  let events := [Arrives 0 (Resolves first); Arrives 1 (Resolves second);
                 Job 0; Job 1] in
  upstreamCalls w1 = upstreamCalls w ++ [type; type]
  /\ fst (event_loop events pool w1) =
     [Fulfilled (map_values (set_each [] second));
      Fulfilled (map_values (set_each [] second))].
Proof.
  intros w0 w1 pool events.
  assert (Hmiss : forall k, (ticks w0 <= k)%nat ->
                    serves_from_cache type (at_reading k w0) = false).
  { intros k _. unfold serves_from_cache. rewrite _isCacheValid_eq.
    destruct type; reflexivity. }
  destruct (call_n_misses type 2 w0 Hmiss) as (Hp & Hc & Hu & Hk).
  fold pool in Hp. fold w1 in Hc, Hu, Hk.
  split.
  - rewrite Hu. reflexivity.
  - rewrite Hp. subst events. simpl.
    unfold map_clear, set_lastUpdate, set_map. simpl.
    rewrite !get_set_same. reflexivity.
Qed.

(** ** The constructor *)

(** [new MetadataCache()], lines 24-45, and [ensure]: a new cache has
    three empty maps, no timestamp and zero counters; with
    [METADATA_CACHE_TTL] unset or empty its time-to-live is 1800000; and
    whatever the setting and the clock, the first [ensure] of any category
    misses and calls upstream. *)
Theorem new_cache_misses_first (env : option string) (clock0 : nat -> Z)
  (type : Category) (response : Response) :
  let w0 := new_World env clock0 in
  let w1 := snd (run (ensure type) [response] w0) in
  maps (cache w0) = all3 []
  /\ lastUpdate (cache w0) = all3 None
  /\ stats (cache w0) = zeroStats
  /\ CACHE_TTL (new_MetadataCache None) = Some 1800000
  /\ CACHE_TTL (new_MetadataCache (Some ""%string)) = Some 1800000
  /\ serves_from_cache type w0 = false
  /\ upstreamCalls w1 = [type]
  /\ get type (misses (stats (cache w1))) = 1%nat
  /\ hits (stats (cache w1)) = all3 0%nat.
Proof.
  intros w0 w1.
  assert (Hs : serves_from_cache type w0 = false).
  { unfold serves_from_cache. rewrite _isCacheValid_eq.
    destruct type; reflexivity. }
  repeat (split; [reflexivity|]).
  split; [exact Hs|].
  destruct (ensure_miss type response w0 Hs) as [Hrun Hcalls].
  fold w1 in Hcalls. split; [exact Hcalls|].
  subst w1. rewrite Hrun.
  assert (Hv : snd (_isCacheValid type w0) = w0).
  { rewrite _isCacheValid_eq. destruct type; reflexivity. }
  rewrite Hv.
  destruct response.
  - rewrite run_refresh_resolves. simpl.
    split; [destruct type; reflexivity | reflexivity].
  - rewrite run_refresh_rejects. simpl.
    split; [destruct type; reflexivity | reflexivity].
Qed.

(** ** More on the report, on added records and on upstream traffic *)

(** [getStats], lines 286-312: [age] is evaluated before [valid], each
    with a clock reading of its own.  When the clock does not run
    backwards, a category reported valid has a timestamp and a numeric
    time-to-live, and the age shown for it is below the time-to-live. *)
Theorem reported_valid_shows_age_below_ttl (fl : Q -> Q) (type : Category)
  (w : World) :
  (forall i j, (i <= j)%nat -> clock w i <= clock w j) ->
  let report := get type (perCategory (fst (getStats fl w))) in
  CategoryStats.valid report = true ->
  exists t ttl k,
    lastRefreshAt type w = Some t
    /\ CACHE_TTL (cache w) = Some ttl
    /\ CategoryStats.age report = age_text (clock w k - t)
    /\ clock w k - t < ttl.
Proof.
  intros Hmono report. subst report. rewrite getStats_eq. simpl.
  set (w1 := snd (categoryStats Tags w)).
  set (w2 := snd (categoryStats Correspondents w1)).
  destruct (categoryStats_cache Tags w) as (C1 & _ & K1).
  destruct (categoryStats_cache Correspondents w1) as (C2 & _ & K2).
  fold w1 in C1, K1. fold w2 in C2, K2.
  assert (Hany : forall v, cache v = cache w -> clock v = clock w ->
    CategoryStats.valid (fst (categoryStats type v)) = true ->
    exists t ttl k,
      lastRefreshAt type w = Some t
      /\ CACHE_TTL (cache w) = Some ttl
      /\ CategoryStats.age (fst (categoryStats type v)) =
         age_text (clock w k - t)
      /\ clock w k - t < ttl).
  { intros v Hc Hk Hvalid.
    assert (Hm : forall i j, (i <= j)%nat -> clock v i <= clock v j)
      by (rewrite Hk; exact Hmono).
    destruct (categoryStats_valid type v Hm Hvalid)
      as (t & ttl & Ht & Httl & Hage & Hlt).
    exists t, ttl, (ticks v). unfold lastRefreshAt in *.
    rewrite <- Hc, <- Hk. auto. }
  destruct type; simpl.
  - apply Hany; reflexivity.
  - apply Hany; [exact C1 | exact K1].
  - apply Hany; [congruence | congruence].
Qed.

Lemma reported_valid_shows_age_below_ttl_witness :
  let fl := fun x : Q => x in
  let w := mkWorld
             (mkCache (all3 []) (mkPer (Some 1000) None None) zeroStats
                      (Some 200000))
             (fun n => 62000 + Z.of_nat n) 0 [] in
  let report := get Tags (perCategory (fst (getStats fl w))) in
  (forall i j, (i <= j)%nat -> clock w i <= clock w j)
  /\ CategoryStats.valid report = true
  /\ CategoryStats.age report = "1m 1s"%string.
Proof.
  intros fl w report.
  assert (Hm : forall i j, (i <= j)%nat -> clock w i <= clock w j)
    by (intros i j Hij;
        change (62000 + Z.of_nat i <= 62000 + Z.of_nat j); lia).
  assert (Hv : CategoryStats.valid report = true) by reflexivity.
  split; [exact Hm|]. split; [exact Hv|].
  destruct (reported_valid_shows_age_below_ttl fl Tags w Hm Hv)
    as (t & ttl & k & _ & _ & _ & _).
  reflexivity.
Defined.

(** [addTag] and its siblings with [ensure] and [refresh], lines 76-109
    and 255-274: a record added to a category that has no timestamp is
    stored but not served.  The next [ensure] misses, and when upstream
    answers with records the map holds these alone: the added record is
    gone unless upstream returned it. *)
Theorem added_record_is_dropped_by_first_refresh (type : Category)
  (record : CachedRecord) (records : list CachedRecord) (w : World) :
  let w0 := snd (clearAll w) in
  let w1 := snd (addOne type record w0) in
  let w2 := snd (run (ensure type) [Resolves records] w1) in
  map_values (entries type w1) = [record]
  /\ serves_from_cache type w1 = false
  /\ upstreamCalls w2 = upstreamCalls w ++ [type]
  /\ entries type w2 = set_each [] records
  /\ fst (run (ensure type) [Resolves records] w1) =
     Fulfilled (map_values (set_each [] records)).
Proof.
  intros w0 w1 w2.
  assert (H1 : map_values (entries type w1) = [record])
    by (destruct type; reflexivity).
  assert (Hs : serves_from_cache type w1 = false).
  { unfold serves_from_cache. rewrite _isCacheValid_eq.
    destruct type; reflexivity. }
  assert (Hv : snd (_isCacheValid type w1) = w1).
  { rewrite _isCacheValid_eq. destruct type; reflexivity. }
  split; [exact H1|]. split; [exact Hs|].
  subst w2. rewrite (run_ensure_miss type _ w1 Hs), Hv.
  rewrite run_refresh_resolves. unfold entries. simpl.
  rewrite !get_set_same. auto.
Qed.

(** [addTag] and its siblings with [ensure], lines 76-81 and 255-274: a
    record added to a category that is served from the cache is returned
    by the next [ensure] taken while the category is still valid, without
    a call to upstream. *)
Theorem added_record_is_served (type : Category) (record : CachedRecord)
  (response : Response) (w : World) :
  fst (_isCacheValid type w) = true ->
  let w1 := snd (addOne type record w) in
  exists values,
    fst (run (ensure type) [response] w1) = Fulfilled values
    /\ In record values
    /\ upstreamCalls (snd (run (ensure type) [response] w1)) =
       upstreamCalls w.
Proof.
  intros Hvalid w1.
  assert (Hs : serves_from_cache type w1 = true).
  { unfold serves_from_cache.
    assert (E : fst (_isCacheValid type w1) = fst (_isCacheValid type w)).
    { rewrite !_isCacheValid_eq. subst w1. unfold lastRefreshAt. simpl.
      destruct (get type (lastUpdate (cache w))) as [t|]; [|reflexivity].
      destruct (t =? 0); reflexivity. }
    rewrite E, Hvalid. simpl.
    subst w1. unfold addOne, modify, entries. simpl. rewrite get_set_same.
    unfold map_size.
    destruct (map_set (get type (maps (cache w))) (id record) record)
      as [|kv m] eqn:Em.
    - destruct (get type (maps (cache w))) as [|[k v] m0]; simpl in Em;
        [discriminate|].
      destruct (Id_eqb k (id record)); discriminate.
    - simpl. apply Z.ltb_lt. lia. }
  exists (map_values (entries type w1)).
  rewrite (ensure_hit type response w1 Hs). simpl.
  split; [reflexivity|]. split; [|reflexivity].
  subst w1. unfold addOne, modify, entries. simpl. rewrite get_set_same.
  apply map_get_In with (k := id record).
  rewrite map_get_set, Id_eqb_refl. reflexivity.
Qed.

Lemma added_record_is_served_witness :
  let old := mkRecord (IdNum 1) "invoice" in
  let new := mkRecord (IdNum 2) "receipt" in
  let w := snd (run (refresh Tags) [Resolves [old]]
                  (new_World None (fun _ => 1700000000000))) in
  let w1 := snd (addOne Tags new w) in
  fst (_isCacheValid Tags w) = true
  /\ fst (run (ensure Tags) [Rejects (mkError "unused")] w1) =
     Fulfilled [old; new].
Proof.
  intros old new w w1.
  assert (Hv : fst (_isCacheValid Tags w) = true) by reflexivity.
  split; [exact Hv|].
  destruct (added_record_is_served Tags new (Rejects (mkError "unused")) w Hv)
    as (values & _ & _ & _).
  reflexivity.
Defined.

(** [ensure], lines 83-85, on the event loop: among calls of [ensure]
    made together on a category that is not served, a call whose response
    has arrived and whose queued last line has then run has returned, with
    the values of the map built from the records, whatever else happens
    in between and after. *)
Theorem ensure_returns_after_response_and_job (type : Category) (n i : nat)
  (records : list CachedRecord) (before between after : list Event)
  (w : World) :
  (forall k, (ticks w <= k)%nat ->
             serves_from_cache type (at_reading k w) = false) ->
  (i < n)%nat ->
  let events := before ++ Arrives i (Resolves records) :: between
                ++ Job i :: after in
  Forall (answers_with records) events ->
  let w1 := snd (call_n n (ensure type) w) in
  let pool := fst (call_n n (ensure type) w) in
  nth_error (fst (event_loop events pool w1)) i =
  Some (Fulfilled (map_values (set_each [] records))).
Proof.
  intros Hmiss Hi events Hans w1 pool.
  destruct (call_n_misses type n w Hmiss) as (Hp & _).
  fold pool in Hp.
  assert (Hpool : pool = List.map (thread_at type records)
                           (repeat Waiting n)).
  { rewrite Hp. clear. induction n; simpl; [reflexivity|]. now f_equal. }
  assert (Hok : pool_ok type records (repeat Waiting n) w1).
  { left. clear. induction n; simpl; constructor; auto. }
  destruct (event_loop_stages type records events (repeat Waiting n) w1
              Hans Hok) as (Hp' & _).
  rewrite <- Hpool in Hp'. rewrite Hp', nth_error_map, stages_after_error.
  rewrite (nth_error_repeat Waiting Hi). simpl.
  assert (Hcons : forall e rest s,
            target e = i ->
            stage_of (e :: rest) i s = stage_of rest i (advance e s)).
  { intros e rest s He. simpl. rewrite He, Nat.eqb_refl. reflexivity. }
  assert (Hstage : stage_of events i Waiting = Returned).
  { subst events. rewrite stage_of_app, Hcons by reflexivity.
    rewrite stage_of_app, Hcons by reflexivity.
    destruct (stage_of before i Waiting);
      cbn [advance];
      try (rewrite stage_of_returned; cbn [advance];
           apply stage_of_returned);
      pose proof (stage_of_queued between i) as Hq;
      destruct (stage_of between i Queued);
      try contradiction; cbn [advance]; apply stage_of_returned. }
  rewrite Hstage. reflexivity.
Qed.

Lemma ensure_returns_after_response_and_job_witness :
  let invoice := mkRecord (IdNum 1) "invoice" in
  let w := new_World None (fun _ => 1700000000000) in
  let events := [Job 1] ++ Arrives 1 (Resolves [invoice])
                :: [Arrives 0 (Resolves [invoice])] ++ Job 1 :: [Job 2] in
  (forall k, (ticks w <= k)%nat ->
             serves_from_cache Tags (at_reading k w) = false)
  /\ (1 < 3)%nat
  /\ Forall (answers_with [invoice]) events
  /\ nth_error (fst (event_loop events (fst (call_n 3 (ensure Tags) w))
                       (snd (call_n 3 (ensure Tags) w)))) 1 =
     Some (Fulfilled [invoice]).
Proof.
  intros invoice w events.
  assert (Hmiss : forall k, (ticks w <= k)%nat ->
                    serves_from_cache Tags (at_reading k w) = false)
    by (intros k _; reflexivity).
  assert (Hi : (1 < 3)%nat) by lia.
  assert (Hans : Forall (answers_with [invoice]) events)
    by (repeat constructor).
  split; [exact Hmiss|]. split; [exact Hi|]. split; [exact Hans|].
  apply (ensure_returns_after_response_and_job Tags 3 1 [invoice]
           [Job 1] [Arrives 0 (Resolves [invoice])] [Job 2] w Hmiss Hi Hans).
Defined.

(** Every method, lines 76-333: what one call adds to the log of upstream
    calls.  An [ensure] that is served, [clearAll], the three [add]
    methods, [getCacheAge], [getStats] and [resetStats] call nothing; an
    [ensure] that misses and a refresh call the method of their category
    once; [refreshAll] calls the three methods once each. *)
Theorem upstream_traffic_of_a_call (fl : Q -> Q) (call : Call) (w : World) :
  upstreamCalls (run_call fl call w) =
  upstreamCalls w ++
  match call with
  | CallEnsure type _ => if serves_from_cache type w then [] else [type]
  | CallRefresh type _ => [type]
  | CallRefreshAll _ => [Tags; Correspondents; DocumentTypes]
  | _ => []
  end.
Proof.
  destruct call as [t r|t r|arrivals| |t r|t| |]; simpl;
    rewrite ?app_nil_r; try reflexivity.
  - destruct (serves_from_cache t w) eqn:Hs.
    + rewrite (ensure_hit t r w Hs). simpl. now rewrite app_nil_r.
    + apply ensure_miss, Hs.
  - apply run_refresh_stats.
  - apply run_refreshAll_effect.
  - apply getCacheAge_cache.
  - rewrite getStats_eq. apply after_getStats_cache.
Qed.
